(** * Matrix multiplication on an OpenCL device: a shallow embedding

    The program under study is [multiplication_deux_matrices.c]: a host
    driver ([main]) that fills two 512x512 matrices with [rand() % 100],
    ships them to a GPU, runs the [matmul] kernel over a 512x512 index
    space, reads the product back and prints its top-left 10x10 corner.

    The development has three layers:
    - [Int32] and [Float32]: the machine arithmetic of the kernel, 32-bit
      two's complement integers and IEEE-754 binary32 (through the
      parameterised specification of [SpecFloat]);
    - the kernel [matmul], one work-item at a time, and [launch], the
      execution of an index space in an arbitrary order;
    - the host driver [main], written in a small monad over a [world]
      that records host and device memory, the in-order command queue and
      the trace of observable events. *)

From Stdlib Require Import ZArith Lia Bool String Ascii DecimalString.
From Stdlib Require Import Floats.SpecFloat.
From stdpp Require Import base tactics option list numbers strings.

Local Open Scope Z_scope.

(** ** 32-bit signed integers (the kernel's [int]) *)

Module Int32.

Definition min_signed : Z := - 2 ^ 31.
Definition max_signed : Z := 2 ^ 31 - 1.

(** Two's complement wrap-around into [[-2^31, 2^31)]. *)
Definition wrap (z : Z) : Z := (z + 2 ^ 31) mod 2 ^ 32 - 2 ^ 31.

Definition add (a b : Z) : Z := wrap (a + b).
Definition mul (a b : Z) : Z := wrap (a * b).

(** Conversion of a [size_t] (the result of [get_global_id]) to [int]. *)
Definition of_size_t (z : Z) : Z := wrap z.

Definition in_range (z : Z) : Prop := min_signed <= z <= max_signed.

End Int32.

(** ** IEEE-754 binary32 (the kernel's and the host's [float]) *)

Module Float32.

Definition prec : Z := 24.
Definition emax : Z := 128.

Definition float : Type := spec_float.

(** [float sum = 0.0] *)
Definition zero : float := S754_zero false.

Definition add (x y : float) : float := SFadd prec emax x y.
Definition mul (x y : float) : float := SFmul prec emax x y.

(** Conversion [int -> float], round to nearest even. *)
Definition of_int (z : Z) : float := binary_normalize prec emax z 0 false.

End Float32.

Abbreviation float := Float32.float.

(** ** Global memory buffers *)

(** A [__global float*] of known extent. *)
Abbreviation buffer := (list float).

(** The output buffer is instrumented with the log of the offsets stored
    to (most recent first), so that "written exactly once" can be stated. *)
Record out_buffer : Type := OutBuffer {
  cells : buffer;
  written : list Z
}.

(** A load outside the buffer is undefined behaviour: [None]. *)
Definition load (b : buffer) (i : Z) : option float :=
  if i <? 0 then None else b !! Z.to_nat i.

Definition store (C : out_buffer) (i : Z) (v : float) : option out_buffer :=
  if (0 <=? i) && (i <? Z.of_nat (length (cells C)))
  then Some (OutBuffer (<[Z.to_nat i := v]> (cells C)) (i :: written C))
  else None.

(** ** The kernel *)

(** The index expressions of the kernel, in [int] arithmetic. *)
Definition idxA (N row k : Z) : Z := Int32.add (Int32.mul row N) k.
Definition idxB (N k col : Z) : Z := Int32.add (Int32.mul k N) col.
Definition idxC (N row col : Z) : Z := Int32.add (Int32.mul row N) col.

(** [for (int k = 0; k < N; k++) sum += A[row * N + k] * B[k * N + col];]
    The loop is run on fuel; [None] is undefined behaviour or lack of fuel. *)
Fixpoint matmul_loop (fuel : nat) (A B : buffer) (N row col k : Z) (sum : float)
  : option float :=
  match fuel with
  | O => None
  | S fuel' =>
      if k <? N then
        a ← load A (idxA N row k);
        b ← load B (idxB N k col);
        matmul_loop fuel' A B N row col (Int32.add k 1)
          (Float32.add sum (Float32.mul a b))
      else Some sum
  end.

(** [__kernel void matmul(A, B, C, N)], for the work-item whose global
    ids are [gid0] (dimension 0) and [gid1] (dimension 1). *)
Definition matmul (A B : buffer) (C : out_buffer) (N : Z) (gid0 gid1 : Z)
  : option out_buffer :=
  let row := Int32.of_size_t gid1 in
  let col := Int32.of_size_t gid0 in
  sum ← matmul_loop (S (Z.to_nat N)) A B N row col 0 Float32.zero;
  store C (idxC N row col) sum.

(** ** Launching the kernel over an index space *)

(** A work-item is identified by its global ids in dimensions 0 and 1. *)
Definition work_item : Type := Z * Z.

(** The 2-D index space [{0..g0-1} x {0..g1-1}], dimension 0 fastest. *)
Definition ndrange (g0 g1 : Z) : list work_item :=
  y ← seqZ 0 g1; (λ x, (x, y)) <$> seqZ 0 g0.

(** The device runs the work-items of a launch in an order of its own
    choosing, [sched]; the kernel has no barrier, so a work-item is run to
    completion before the next one starts. *)
Fixpoint launch (sched : list work_item) (A B : buffer) (N : Z) (C : out_buffer)
  : option out_buffer :=
  match sched with
  | [] => Some C
  | (gid0, gid1) :: rest =>
      C' ← matmul A B C N gid0 gid1;
      launch rest A B N C'
  end.

(** ** The reference: a triple loop on the host, in unbounded indices *)

Definition ref_cell (b : buffer) (i : Z) : float :=
  default Float32.zero (b !! Z.to_nat i).

Definition ref_dot (A B : buffer) (N i j : Z) : float :=
  foldl (λ sum k, Float32.add sum (Float32.mul (ref_cell A (i * N + k)) (ref_cell B (k * N + j))))
        Float32.zero (seqZ 0 N).

Definition reference_matmul (A B : buffer) (N : Z) (C : buffer) : buffer :=
  foldl (λ C i, foldl (λ C j, <[Z.to_nat (i * N + j) := ref_dot A B N i j]> C) C (seqZ 0 N))
        C (seqZ 0 N).

(** How many times offset [o] was stored to. *)
Definition store_count (o : Z) (C : out_buffer) : nat :=
  length (filter (λ o', o' = o) (written C)).

(** ** The host program: what it talks to *)

(** The three matrices; the same names identify the host arrays [A], [B],
    [C] and the device buffers [bufferA], [bufferB], [bufferC]. *)
Inductive mem_name : Type := MemA | MemB | MemC.

Record mem3 : Type := Mem3 { mA : buffer; mB : buffer; mC : buffer }.

Definition mget (m : mem3) (b : mem_name) : buffer :=
  match b with MemA => mA m | MemB => mB m | MemC => mC m end.

Definition mset (m : mem3) (b : mem_name) (v : buffer) : mem3 :=
  match b with
  | MemA => Mem3 v (mB m) (mC m)
  | MemB => Mem3 (mA m) v (mC m)
  | MemC => Mem3 (mA m) (mB m) v
  end.

(** A value bound to a kernel argument by [clSetKernelArg]. *)
Inductive karg : Type := ArgMem (b : mem_name) | ArgInt (n : Z).

(** The calls of the compute API that [main] makes, with the arguments
    that matter to the model. *)
Inductive api_call : Type :=
  | clGetPlatformIDs
  | clGetDeviceIDs
  | clCreateContext
  | clCreateCommandQueue
  | clCreateBuffer (b : mem_name) (bytes : Z)
  | clEnqueueWriteBuffer (b : mem_name) (blocking : bool)
  | clCreateProgramWithSource
  | clBuildProgram
  | clGetProgramBuildInfo
  | clCreateKernel
  | clSetKernelArg (index : Z) (value : karg)
  | clEnqueueNDRangeKernel (g0 g1 l0 l1 : Z)
  | clEnqueueReadBuffer (b : mem_name) (blocking : bool)
  | clReleaseMemObject (b : mem_name)
  | clReleaseKernel
  | clReleaseProgram
  | clReleaseCommandQueue
  | clReleaseContext.

(** Commands of the in-order command queue. A kernel command carries the
    arguments bound when it was enqueued. *)
Inductive command : Type :=
  | CmdWrite (b : mem_name)
  | CmdKernel (args : list (option karg)) (g0 g1 : Z)
  | CmdRead (b : mem_name).

(** Observable events, in the order they happen. *)
Inductive event : Type :=
  | EvMalloc (h : mem_name)
  | EvFree (h : mem_name)
  | EvCall (c : api_call) (status : Z)
  | EvComplete (cmd : command)
  | EvStdout (s : string)
  | EvStderr (s : string).

(** What the program cannot control: the status every API call returns,
    the build log the API leaves in the caller's buffer, the order in which
    the device runs the work-items of a launch, whether the device works
    on queued commands before the host waits for them, the contents of
    fresh memory, the C library's [rand] (a step function on the
    generator's state) and its rendering of a [float] under [%f]. *)
Record environment : Type := Environment {
  cl_status : api_call → Z;
  build_log : string;
  reorder : list work_item → list work_item;
  eager : bool;
  host_uninit : mem_name → Z → float;
  dev_uninit : mem_name → Z → float;
  rand_next : Z → Z * Z;
  fmt_f : float → string
}.

Record world : Type := World {
  rng : Z;                        (* state of the generator behind rand() *)
  host : mem3;                    (* the arrays A, B, C of main *)
  dev : mem3;                     (* the device buffers *)
  kargs : list (option karg);     (* arguments bound to the kernel *)
  pending : list command;         (* enqueued, not yet complete; oldest first *)
  stores : list Z;                (* offsets stored to by the last launch *)
  trace : list event              (* newest first *)
}.

Definition set_rng (v : Z) (w : world) : world :=
  World v (host w) (dev w) (kargs w) (pending w) (stores w) (trace w).
Definition set_host (v : mem3) (w : world) : world :=
  World (rng w) v (dev w) (kargs w) (pending w) (stores w) (trace w).
Definition set_dev (v : mem3) (w : world) : world :=
  World (rng w) (host w) v (kargs w) (pending w) (stores w) (trace w).
Definition set_kargs (v : list (option karg)) (w : world) : world :=
  World (rng w) (host w) (dev w) v (pending w) (stores w) (trace w).
Definition set_pending (v : list command) (w : world) : world :=
  World (rng w) (host w) (dev w) (kargs w) v (stores w) (trace w).
Definition set_stores (v : list Z) (w : world) : world :=
  World (rng w) (host w) (dev w) (kargs w) (pending w) v (trace w).
Definition emit (e : event) (w : world) : world :=
  World (rng w) (host w) (dev w) (kargs w) (pending w) (stores w) (e :: trace w).

(** No [srand] call precedes the first [rand]: the generator starts in
    the state of seed 1 (ISO C, 7.22.2.2). *)
Definition initial_world : world :=
  World 1 (Mem3 [] [] []) (Mem3 [] [] []) [None; None; None; None] [] [] [].

(** ** The monad of the host program *)

(** A computation returns, leaves the process through [exit], or runs
    into undefined behaviour. *)
Inductive outcome (A : Type) : Type :=
  | Ret (a : A)
  | Exit (code : Z)
  | Undefined.
Arguments Ret {A} a.
Arguments Exit {A} code.
Arguments Undefined {A}.

Definition M (A : Type) : Type := world → outcome A * world.

Definition ret {A} (a : A) : M A := λ w, (Ret a, w).

Definition bind {A B} (m : M A) (k : A → M B) : M B :=
  λ w, match m w with
       | (Ret a, w') => k a w'
       | (Exit c, w') => (Exit c, w')
       | (Undefined, w') => (Undefined, w')
       end.

Declare Scope host_scope.
Delimit Scope host_scope with host.
Notation "'do' x <- m ; k" := (bind m (λ x, k))
  (at level 10, x name, m at level 100, k at level 200,
   format "'[v' 'do'  x  <-  m ; '/' k ']'") : host_scope.
Notation "m ;;; k" := (bind m (λ _, k))
  (at level 100, k at level 200, right associativity) : host_scope.
Local Open Scope host_scope.

Definition exit {A} (code : Z) : M A := λ w, (Exit code, w).
Definition undefined {A} : M A := λ w, (Undefined, w).
Definition modify (f : world → world) : M unit := λ w, (Ret tt, f w).
Definition gets {A} (f : world → A) : M A := λ w, (Ret (f w), w).

(** [for (int i = start; i < bound; i++) body], on fuel. *)
Fixpoint for_loop (fuel : nat) (i bound : Z) (body : Z → M unit) : M unit :=
  match fuel with
  | O => undefined
  | S fuel' =>
      if i <? bound then body i ;;; for_loop fuel' (Int32.add i 1) bound body
      else ret tt
  end.

(** ** Constants of the program and of the API *)

Definition MATRIX_SIZE : Z := 512.
Definition CL_SUCCESS : Z := 0.
Definition CL_TRUE : bool := true.
Definition sizeof_float : Z := 4.

Definition nl : string := String "010" EmptyString.

(** [%d] *)
Definition fmt_d (z : Z) : string := NilZero.string_of_int (Z.to_int z).

(** ** The host program *)

Section Host.

Variable env : environment.

(** *** The C library *)

(** [malloc] is taken to succeed (the program never tests its result);
    the fresh block holds whatever the environment left there. *)
Definition malloc (h : mem_name) (bytes : Z) : M unit :=
  modify (λ w, emit (EvMalloc h)
    (set_host (mset (host w) h (host_uninit env h <$> seqZ 0 (bytes / sizeof_float))) w)).

Definition free (h : mem_name) : M unit := modify (emit (EvFree h)).

Definition rand : M Z :=
  λ w, let '(v, s) := rand_next env (rng w) in (Ret v, set_rng s w).

(** [h[i] = v] and [h[i]] on a host array. *)
Definition host_store (h : mem_name) (i : Z) (v : float) : M unit :=
  λ w, if (0 <=? i) && (i <? Z.of_nat (length (mget (host w) h)))
       then (Ret tt, set_host (mset (host w) h (<[Z.to_nat i := v]> (mget (host w) h))) w)
       else (Undefined, w).

Definition host_load (h : mem_name) (i : Z) : M float :=
  λ w, match load (mget (host w) h) i with
       | Some v => (Ret v, w)
       | None => (Undefined, w)
       end.

Definition printf (s : string) : M unit := modify (emit (EvStdout s)).
Definition fprintf_stderr (s : string) : M unit := modify (emit (EvStderr s)).

(** *** The compute API *)

(** The device completes one command of the queue. Transfers move the
    whole array (the program always passes offset 0 and the full size). *)
Definition exec (cmd : command) : M unit :=
  λ w, match cmd with
       | CmdWrite b =>
           (Ret tt, emit (EvComplete cmd) (set_dev (mset (dev w) b (mget (host w) b)) w))
       | CmdRead b =>
           (Ret tt, emit (EvComplete cmd) (set_host (mset (host w) b (mget (dev w) b)) w))
       | CmdKernel [Some (ArgMem a); Some (ArgMem b); Some (ArgMem c); Some (ArgInt n)] g0 g1 =>
           match launch (reorder env (ndrange g0 g1)) (mget (dev w) a) (mget (dev w) b) n
                        (OutBuffer (mget (dev w) c) []) with
           | Some C' =>
               (Ret tt, emit (EvComplete cmd)
                          (set_stores (written C') (set_dev (mset (dev w) c (cells C')) w)))
           | None => (Undefined, w)
           end
       | CmdKernel _ _ _ => (Undefined, w)
       end.

Fixpoint exec_all (cmds : list command) : M unit :=
  match cmds with
  | [] => ret tt
  | cmd :: rest => exec cmd ;;; exec_all rest
  end.

(** The host waits until the queue is empty. *)
Definition finish : M unit :=
  λ w, exec_all (pending w) (set_pending [] w).

(** A command is appended to the in-order queue; the call returns at
    once unless it is a blocking one, which returns when the queue is
    empty. An eager device does not wait to be asked. *)
Definition enqueue (cmd : command) (blocking : bool) : M unit :=
  modify (λ w, set_pending (pending w ++ [cmd]) w) ;;;
  if blocking || eager env then finish else ret tt.

(** What a successful call does. [clEnqueueNDRangeKernel] has no
    blocking parameter: the launch is only enqueued. *)
Definition api_effect (c : api_call) : M unit :=
  match c with
  | clCreateBuffer b bytes =>
      modify (λ w, set_dev (mset (dev w) b (dev_uninit env b <$> seqZ 0 (bytes / sizeof_float))) w)
  | clEnqueueWriteBuffer b blocking => enqueue (CmdWrite b) blocking
  | clEnqueueReadBuffer b blocking => enqueue (CmdRead b) blocking
  | clSetKernelArg i v =>
      modify (λ w, set_kargs (<[Z.to_nat i := Some v]> (kargs w)) w)
  | clEnqueueNDRangeKernel g0 g1 _ _ =>
      do args <- gets kargs;
      enqueue (CmdKernel args g0 g1) false
  | _ => ret tt
  end.

(** An API call: the environment decides its status; it takes effect
    only when that status is [CL_SUCCESS]. *)
Definition call (c : api_call) : M Z :=
  λ w, let st := cl_status env c in
       let w' := emit (EvCall c st) w in
       if st =? CL_SUCCESS then (api_effect c ;;; ret st) w' else (Ret st, w').

(** *** The program *)

Definition checkError (err : Z) (operation : string) : M unit :=
  if negb (err =? CL_SUCCESS) then
    fprintf_stderr ("Error during operation '" +:+ operation +:+ "': " +:+ fmt_d err +:+ nl) ;;;
    exit 1
  else ret tt.

Definition main : M Z :=
  let N := MATRIX_SIZE in
  let bytes := Int32.mul N N * sizeof_float in
  malloc MemA bytes ;;;
  malloc MemB bytes ;;;
  malloc MemC bytes ;;;
  for_loop (S (Z.to_nat (Int32.mul N N))) 0 (Int32.mul N N) (λ i,
    do r <- rand;
    host_store MemA i (Float32.of_int (Z.rem r 100)) ;;;
    do r <- rand;
    host_store MemB i (Float32.of_int (Z.rem r 100))) ;;;
  do err <- call clGetPlatformIDs;
  checkError err "Getting platform" ;;;
  do err <- call clGetDeviceIDs;
  checkError err "Getting device" ;;;
  do err <- call clCreateContext;
  checkError err "Creating context" ;;;
  do err <- call clCreateCommandQueue;
  checkError err "Creating command queue" ;;;
  do err <- call (clCreateBuffer MemA bytes);
  checkError err "Creating buffer A" ;;;
  do err <- call (clCreateBuffer MemB bytes);
  checkError err "Creating buffer B" ;;;
  do err <- call (clCreateBuffer MemC bytes);
  checkError err "Creating buffer C" ;;;
  do err <- call (clEnqueueWriteBuffer MemA CL_TRUE);
  checkError err "Copying A to device" ;;;
  do err <- call (clEnqueueWriteBuffer MemB CL_TRUE);
  checkError err "Copying B to device" ;;;
  do err <- call clCreateProgramWithSource;
  checkError err "Creating program" ;;;
  do err <- call clBuildProgram;
  (if negb (err =? CL_SUCCESS) then
     do _ <- call clGetProgramBuildInfo;
     fprintf_stderr ("CL Compilation failed:" +:+ nl +:+ build_log env +:+ nl) ;;;
     exit 1
   else ret tt) ;;;
  do err <- call clCreateKernel;
  checkError err "Creating kernel" ;;;
  do err <- call (clSetKernelArg 0 (ArgMem MemA));
  checkError err "Setting kernel arg 0" ;;;
  do err <- call (clSetKernelArg 1 (ArgMem MemB));
  checkError err "Setting kernel arg 1" ;;;
  do err <- call (clSetKernelArg 2 (ArgMem MemC));
  checkError err "Setting kernel arg 2" ;;;
  do err <- call (clSetKernelArg 3 (ArgInt N));
  checkError err "Setting kernel arg 3" ;;;
  do err <- call (clEnqueueNDRangeKernel N N 16 16);
  checkError err "Enqueueing kernel" ;;;
  do err <- call (clEnqueueReadBuffer MemC CL_TRUE);
  checkError err "Reading result" ;;;
  for_loop 11 0 10 (λ i,
    for_loop 11 0 10 (λ j,
      do v <- host_load MemC (Int32.add (Int32.mul i N) j);
      printf (fmt_f env v +:+ " ")) ;;;
    printf nl) ;;;
  do _ <- call (clReleaseMemObject MemA);
  do _ <- call (clReleaseMemObject MemB);
  do _ <- call (clReleaseMemObject MemC);
  do _ <- call clReleaseKernel;
  do _ <- call clReleaseProgram;
  do _ <- call clReleaseCommandQueue;
  do _ <- call clReleaseContext;
  free MemA ;;;
  free MemB ;;;
  free MemC ;;;
  ret 0.

End Host.

(** ** Running the program and reading its trace *)

Definition run (env : environment) : outcome Z * world := main env initial_world.

(** The exit status of the process, if it has one. *)
Definition exit_status (env : environment) : option Z :=
  match fst (run env) with
  | Ret v => Some v
  | Exit c => Some c
  | Undefined => None
  end.

(** The events of a run, oldest first. *)
Definition events (env : environment) : list event := reverse (trace (snd (run env))).

(** * Properties *)

(** ** Integer arithmetic of the kernel *)


Lemma wrap_in_range z : Int32.in_range z → Int32.wrap z = z.
Proof.
  unfold Int32.in_range, Int32.min_signed, Int32.max_signed, Int32.wrap.
  intros H. rewrite Z.mod_small by lia. lia.
Qed.

Lemma load_in_bounds (b : buffer) o :
  0 <= o < Z.of_nat (length b) → load b o = Some (ref_cell b o).
Proof.
  intros Ho. unfold load, ref_cell.
  destruct (Z.ltb_spec o 0); [lia|].
  destruct (b !! Z.to_nat o) as [v|] eqn:E; [done|].
  apply lookup_ge_None in E. lia.
Qed.

Lemma count_once (l : list Z) o :
  NoDup l → o ∈ l → length (filter (λ o', o' = o) l) = 1%nat.
Proof.
  induction 1 as [|x l Hx Hl IH]; intros Hin; [by apply elem_of_nil in Hin|].
  destruct (decide (x = o)) as [->|Hne].
  - rewrite filter_cons_True by done. simpl. f_equal.
    destruct (filter (λ o', o' = o) l) as [|z l'] eqn:E; [done|].
    assert (z ∈ filter (λ o', o' = o) l) as Hz by (rewrite E; left).
    apply list_elem_of_filter in Hz as [-> Hz]. done.
  - rewrite filter_cons_False by done. apply IH.
    apply elem_of_cons in Hin as [Heq|Hin]; [congruence|done].
Qed.

(** The reference is the same sequence of stores, in row-major order. *)
Lemma foldl_bind {X Y Z'} (f : X → Y → X) (g : Z' → list Y) (l : list Z') (a : X) :
  foldl f a (l ≫= g) = foldl (λ a z, foldl f a (g z)) a l.
Proof.
  revert a. induction l as [|z l IH]; intros a; [done|].
  rewrite bind_cons, foldl_app. simpl. apply IH.
Qed.

Lemma foldl_pointwise {X Y} (f g : X → Y → X) (l : list Y) (a : X) :
  (∀ a y, f a y = g a y) → foldl f a l = foldl g a l.
Proof.
  intros Hfg. revert a. induction l as [|y l IH]; intros a; [done|].
  simpl. by rewrite Hfg, IH.
Qed.

Section Indices.

Variable N : Z.
Hypothesis N_pos : 0 < N.
Hypothesis N_fits : N * N <= Int32.max_signed.

Lemma offset_bounds i j : 0 <= i < N → 0 <= j < N → 0 <= i * N + j < N * N.
Proof. intros. nia. Qed.

Lemma N_in_range : Int32.in_range N.
Proof. unfold Int32.in_range, Int32.min_signed, Int32.max_signed in *. nia. Qed.

Lemma offset_in_range i j : 0 <= i < N → 0 <= j < N → Int32.in_range (i * N + j).
Proof.
  intros Hi Hj. pose proof (offset_bounds i j Hi Hj).
  unfold Int32.in_range, Int32.min_signed, Int32.max_signed in *. lia.
Qed.

Lemma row_in_range i : 0 <= i < N → Int32.in_range (i * N).
Proof.
  intros Hi. pose proof (offset_in_range i 0 Hi ltac:(lia)) as H.
  by rewrite Z.add_0_r in H.
Qed.

Lemma int_offset i j : 0 <= i < N → 0 <= j < N →
  Int32.add (Int32.mul i N) j = i * N + j.
Proof.
  intros Hi Hj. unfold Int32.add, Int32.mul.
  rewrite (wrap_in_range (i * N)) by by apply row_in_range.
  by apply wrap_in_range, offset_in_range.
Qed.

Lemma idxA_exact row k : 0 <= row < N → 0 <= k < N → idxA N row k = row * N + k.
Proof. apply int_offset. Qed.

Lemma idxB_exact k col : 0 <= k < N → 0 <= col < N → idxB N k col = k * N + col.
Proof. apply int_offset. Qed.

Lemma idxC_exact row col : 0 <= row < N → 0 <= col < N → idxC N row col = row * N + col.
Proof. apply int_offset. Qed.

Lemma of_size_t_exact g : 0 <= g < N → Int32.of_size_t g = g.
Proof.
  intros Hg. apply wrap_in_range. pose proof N_in_range.
  unfold Int32.in_range, Int32.min_signed, Int32.max_signed in *. lia.
Qed.

Lemma incr_exact k : 0 <= k < N → Int32.add k 1 = k + 1.
Proof.
  intros Hk. apply wrap_in_range. pose proof N_in_range.
  unfold Int32.in_range, Int32.min_signed, Int32.max_signed in *. lia.
Qed.

(** The index space and its offsets *)

Definition in_space (wi : work_item) : Prop := 0 <= wi.1 < N ∧ 0 <= wi.2 < N.

Definition offset_of (wi : work_item) : Z := wi.2 * N + wi.1.

Lemma offset_of_inj wi1 wi2 :
  in_space wi1 → in_space wi2 → offset_of wi1 = offset_of wi2 → wi1 = wi2.
Proof.
  destruct wi1 as [x1 y1], wi2 as [x2 y2]. unfold in_space, offset_of. simpl.
  intros [? ?] [? ?] Heq.
  assert (y1 = y2) by nia. subst. f_equal. lia.
Qed.

Lemma offset_of_bounds wi : in_space wi → 0 <= offset_of wi < N * N.
Proof. intros [? ?]. by apply offset_bounds. Qed.

(** The index space, read through [offset_of], is the row-major
    enumeration of the offsets. *)
Lemma ndrange_rows (n : nat) :
  offset_of <$> ndrange N (Z.of_nat n) = seqZ 0 (Z.of_nat n * N).
Proof.
  unfold ndrange. induction n as [|n IH].
  - by rewrite (seqZ_nil 0 (Z.of_nat 0)), (seqZ_nil 0 (Z.of_nat 0 * N)) by lia.
  - rewrite seqZ_S, bind_app, fmap_app, IH. simpl.
    rewrite app_nil_r, <- list_fmap_compose.
    replace (Z.of_nat (S n) * N) with (Z.of_nat n * N + N) by lia.
    rewrite seqZ_app by lia. f_equal.
    replace (seqZ (0 + Z.of_nat n * N) N) with (seqZ (Z.of_nat n * N + 0) N)
      by (f_equal; lia).
    rewrite <- fmap_add_seqZ.
    apply list_fmap_ext. intros _ x _. unfold offset_of. simpl. lia.
Qed.

Lemma ndrange_offsets : offset_of <$> ndrange N N = seqZ 0 (N * N).
Proof. rewrite <- (Z2Nat.id N) at 2 3 by lia. apply ndrange_rows. Qed.

Lemma ndrange_in_space : Forall in_space (ndrange N N).
Proof.
  apply Forall_forall. intros [x y]. unfold ndrange. rewrite list_elem_of_bind.
  intros (y' & Hx & Hy). apply list_elem_of_fmap in Hx as (x' & Heq & Hx).
  injection Heq as -> ->. apply elem_of_seqZ in Hx, Hy.
  unfold in_space. simpl. lia.
Qed.

Lemma ndrange_complete x y : 0 <= x < N → 0 <= y < N → (x, y) ∈ ndrange N N.
Proof.
  intros Hx Hy. unfold ndrange. apply list_elem_of_bind. exists y. split.
  - apply list_elem_of_fmap. exists x. split; [done|]. apply elem_of_seqZ. lia.
  - apply elem_of_seqZ. lia.
Qed.

End Indices.

(** ** One work-item *)

Section Launch.

Variable N : Z.
Hypothesis N_pos : 0 < N.
Hypothesis N_fits : N * N <= Int32.max_signed.
Variables A B : buffer.
Hypothesis A_len : Z.of_nat (length A) = N * N.
Hypothesis B_len : Z.of_nat (length B) = N * N.

Definition dot_step (i j : Z) (sum : float) (k : Z) : float :=
  Float32.add sum (Float32.mul (ref_cell A (i * N + k)) (ref_cell B (k * N + j))).

(** With fuel for the remaining iterations and the exit test, the loop
    returns the left fold of the remaining terms. *)
Lemma matmul_loop_spec fuel row col k sum :
  0 <= row < N → 0 <= col < N → 0 <= k <= N →
  (Z.to_nat (N - k) < fuel)%nat →
  matmul_loop fuel A B N row col k sum
  = Some (foldl (dot_step row col) sum (seqZ k (N - k))).
Proof.
  intros Hrow Hcol. revert k sum.
  induction fuel as [|fuel IH]; intros k sum Hk Hfuel; [lia|].
  simpl. destruct (Z.ltb_spec k N) as [Hlt|Hge].
  - rewrite (idxA_exact N N_pos N_fits), (idxB_exact N N_pos N_fits) by lia.
    rewrite !load_in_bounds by (rewrite ?A_len, ?B_len; apply (offset_bounds N N_pos); lia).
    simpl. rewrite (incr_exact N N_pos N_fits) by lia.
    rewrite IH by lia.
    rewrite (seqZ_cons k) by lia. simpl.
    by replace (Z.pred (N - k)) with (N - (k + 1)) by lia.
  - by rewrite seqZ_nil by lia.
Qed.

Lemma ref_dot_fold i j : ref_dot A B N i j = foldl (dot_step i j) Float32.zero (seqZ 0 N).
Proof. done. Qed.

(** A work-item of the index space stores the dot product of its row
    and column at its own offset, and nothing else. *)
Lemma matmul_spec (C : out_buffer) g0 g1 :
  0 <= g0 < N → 0 <= g1 < N →
  Z.of_nat (length (cells C)) = N * N →
  matmul A B C N g0 g1
  = Some (OutBuffer (<[Z.to_nat (g1 * N + g0) := ref_dot A B N g1 g0]> (cells C))
                    ((g1 * N + g0) :: written C)).
Proof.
  intros H0 H1 HC. unfold matmul.
  rewrite !(of_size_t_exact N N_pos N_fits) by done.
  rewrite matmul_loop_spec by lia. simpl.
  rewrite (idxC_exact N N_pos N_fits) by done.
  unfold store. rewrite Z.sub_0_r, <- ref_dot_fold.
  pose proof (offset_bounds N N_pos g1 g0 H1 H0).
  destruct (Z.leb_spec 0 (g1 * N + g0)); [|lia].
  destruct (Z.ltb_spec (g1 * N + g0) (Z.of_nat (length (cells C)))); [done|lia].
Qed.

(** ** A whole launch *)

(** The cells after the work-items [items] have run, in that order. *)
Definition apply_items (items : list work_item) (c : buffer) : buffer :=
  foldl (λ c wi, <[Z.to_nat (offset_of N wi) := ref_dot A B N wi.2 wi.1]> c) c items.

Lemma apply_items_snoc items wi c :
  apply_items (items ++ [wi]) c
  = <[Z.to_nat (offset_of N wi) := ref_dot A B N wi.2 wi.1]> (apply_items items c).
Proof. unfold apply_items. by rewrite foldl_snoc. Qed.

Lemma apply_items_length items c : length (apply_items items c) = length c.
Proof.
  induction items as [|wi items IH] using rev_ind; [done|].
  by rewrite apply_items_snoc, length_insert.
Qed.

Lemma launch_spec sched C :
  Forall (in_space N) sched →
  Z.of_nat (length (cells C)) = N * N →
  launch sched A B N C
  = Some (OutBuffer (apply_items sched (cells C))
                    (reverse (offset_of N <$> sched) ++ written C)).
Proof.
  intros Hs. revert C. induction Hs as [|[g0 g1] sched [H0 H1] Hs IH]; intros C HC.
  - by destruct C.
  - simpl in H0, H1. cbn [launch]. rewrite matmul_spec by done. simpl.
    rewrite IH by (simpl; by rewrite length_insert). simpl.
    by rewrite reverse_cons, <- app_assoc.
Qed.

(** Whatever the order, a cell of the index space holds its dot product. *)
Lemma apply_items_lookup items c wi :
  Forall (in_space N) items → in_space N wi → wi ∈ items →
  Z.of_nat (length c) = N * N →
  apply_items items c !! Z.to_nat (offset_of N wi) = Some (ref_dot A B N wi.2 wi.1).
Proof.
  intros Hs Hwi Hin Hc. induction items as [|wi' items IH] using rev_ind.
  - by apply elem_of_nil in Hin.
  - apply Forall_app in Hs as [Hs Hwi']. rewrite Forall_singleton in Hwi'.
    rewrite apply_items_snoc.
    pose proof (offset_of_bounds N N_pos wi Hwi).
    destruct (decide (wi' = wi)) as [->|Hne].
    + apply list_lookup_insert_eq. rewrite apply_items_length. lia.
    + rewrite list_lookup_insert_ne.
      * apply IH; [done|]. apply elem_of_app in Hin as [Hin|Hin]; [done|].
        apply list_elem_of_singleton in Hin. congruence.
      * intros Heq. apply Hne. apply (offset_of_inj N N_pos); try done.
        pose proof (offset_of_bounds N N_pos wi' Hwi'). lia.
Qed.

Lemma reference_matmul_items c :
  reference_matmul A B N c = apply_items (ndrange N N) c.
Proof.
  unfold reference_matmul, apply_items, ndrange. rewrite foldl_bind.
  apply foldl_pointwise. intros a i. by rewrite foldl_fmap.
Qed.

(** The cells after a launch do not depend on the order of the work-items. *)
Lemma apply_items_reference sched c :
  sched ≡ₚ ndrange N N →
  Z.of_nat (length c) = N * N →
  apply_items sched c = reference_matmul A B N c.
Proof.
  intros Hperm Hc. rewrite reference_matmul_items.
  assert (Forall (in_space N) sched) as Hs by (rewrite Hperm; apply ndrange_in_space).
  apply list_eq. intros n.
  destruct (decide (n < length c)%nat) as [Hn|Hn].
  - set (wi := (Z.of_nat n mod N, Z.of_nat n / N)).
    assert (in_space N wi) as Hwi.
    { unfold in_space, wi. simpl. split; [apply Z.mod_pos_bound; lia|].
      split; [apply Z.div_pos; lia|]. apply Z.div_lt_upper_bound; lia. }
    assert (Z.to_nat (offset_of N wi) = n) as Hwn.
    { unfold offset_of, wi. simpl.
      pose proof (Z.div_mod (Z.of_nat n) N ltac:(lia)). lia. }
    clearbody wi. rewrite <- Hwn.
    assert (wi ∈ ndrange N N) as Hin
      by (destruct wi; apply ndrange_complete; apply Hwi).
    rewrite !apply_items_lookup; try done.
    + apply ndrange_in_space.
    + by rewrite Hperm.
  - rewrite !lookup_ge_None_2; [done|rewrite apply_items_length; lia..].
Qed.

(** *** The launch over the full index space, in any order *)
Lemma launch_ndrange sched C0 :
  sched ≡ₚ ndrange N N →
  Z.of_nat (length C0) = N * N →
  ∃ C', launch sched A B N (OutBuffer C0 []) = Some C'
        ∧ cells C' = reference_matmul A B N C0
        ∧ written C' ≡ₚ seqZ 0 (N * N)
        ∧ ∀ i j, 0 <= i < N → 0 <= j < N →
            store_count (i * N + j) C' = 1%nat
            ∧ cells C' !! Z.to_nat (i * N + j) = Some (ref_dot A B N i j).
Proof.
  intros Hperm HC.
  assert (Forall (in_space N) sched) as Hs by (rewrite Hperm; apply ndrange_in_space).
  eexists. split; [by apply launch_spec|]. simpl.
  assert (reverse (offset_of N <$> sched) ++ [] ≡ₚ seqZ 0 (N * N)) as Hw.
  { by rewrite app_nil_r, reverse_Permutation, Hperm, ndrange_offsets. }
  split; [by apply apply_items_reference|]. split; [done|].
  intros i j Hi Hj. split.
  - unfold store_count. simpl. rewrite Hw. apply count_once.
    + apply NoDup_seqZ.
    + apply elem_of_seqZ. pose proof (offset_bounds N N_pos i j Hi Hj). lia.
  - apply (apply_items_lookup sched C0 (j, i)); try done.
    rewrite Hperm. by apply ndrange_complete.
Qed.

(** The result of a launch over the full index space, in closed form. *)
Lemma launch_result sched C0 :
  sched ≡ₚ ndrange N N →
  Z.of_nat (length C0) = N * N →
  launch sched A B N (OutBuffer C0 [])
  = Some (OutBuffer (reference_matmul A B N C0) (reverse (offset_of N <$> sched))).
Proof.
  intros Hperm HC.
  assert (Forall (in_space N) sched) as Hs by (rewrite Hperm; apply ndrange_in_space).
  rewrite launch_spec by done. simpl.
  by rewrite app_nil_r, apply_items_reference.
Qed.

End Launch.

(** ** The launch of the program: [N = MATRIX_SIZE = 512] *)

Lemma MATRIX_SIZE_pos : 0 < MATRIX_SIZE.
Proof. done. Qed.

Lemma MATRIX_SIZE_fits : MATRIX_SIZE * MATRIX_SIZE <= Int32.max_signed.
Proof. by vm_compute. Qed.

(** C1. Launched over the 512x512 index space, in whatever order the
    device runs the work-items, the kernel stores to every cell
    [i * N + j] of the output exactly once, and the value it leaves there
    is the sum over [k] of [A[i * N + k] * B[k * N + j]] as the triple loop
    of the host reference computes it in binary32: the two results are
    equal, cell by cell and as whole buffers. *)
Theorem launch_matches_reference (A B C0 : buffer) (sched : list work_item) :
  Z.of_nat (length A) = MATRIX_SIZE * MATRIX_SIZE →
  Z.of_nat (length B) = MATRIX_SIZE * MATRIX_SIZE →
  Z.of_nat (length C0) = MATRIX_SIZE * MATRIX_SIZE →
  sched ≡ₚ ndrange MATRIX_SIZE MATRIX_SIZE →
  ∃ C', launch sched A B MATRIX_SIZE (OutBuffer C0 []) = Some C'
        ∧ cells C' = reference_matmul A B MATRIX_SIZE C0
        ∧ ∀ i j, 0 <= i < MATRIX_SIZE → 0 <= j < MATRIX_SIZE →
            store_count (i * MATRIX_SIZE + j) C' = 1%nat
            ∧ cells C' !! Z.to_nat (i * MATRIX_SIZE + j)
              = Some (ref_dot A B MATRIX_SIZE i j).
Proof.
  intros HA HB HC Hperm.
  destruct (launch_ndrange MATRIX_SIZE MATRIX_SIZE_pos MATRIX_SIZE_fits
              A B HA HB sched C0 Hperm HC) as (C' & HL & Hcells & _ & Hall).
  exists C'. auto.
Qed.

(** C10. For a work-item of the 512x512 index space and [k] in [[0, N)],
    the conversions of the global ids and every product and sum of the
    index expressions are free of wrap-around, and the offsets into [A],
    [B] and [C] lie in [[0, N * N)], at most 262143. *)
Theorem kernel_indices_in_bounds (wi : work_item) (k : Z) :
  wi ∈ ndrange MATRIX_SIZE MATRIX_SIZE →
  0 <= k < MATRIX_SIZE →
  let N := MATRIX_SIZE in
  let row := Int32.of_size_t wi.2 in
  let col := Int32.of_size_t wi.1 in
  (row = wi.2 ∧ col = wi.1)
  ∧ (Int32.mul row N = row * N ∧ Int32.mul k N = k * N ∧ Int32.add k 1 = k + 1)
  ∧ (idxA N row k = row * N + k ∧ 0 <= idxA N row k < N * N)
  ∧ (idxB N k col = k * N + col ∧ 0 <= idxB N k col < N * N)
  ∧ (idxC N row col = row * N + col ∧ 0 <= idxC N row col < N * N)
  ∧ (idxA N row k <= 262143 ∧ idxB N k col <= 262143 ∧ idxC N row col <= 262143)
  ∧ 262143 < Int32.max_signed.
Proof.
  intros Hwi Hk N row col.
  pose proof (proj1 (Forall_forall _ _)
                (ndrange_in_space MATRIX_SIZE) wi Hwi) as [H1 H2].
  fold N in H1, H2.
  assert (row = wi.2) as Hrow
    by (apply (of_size_t_exact N MATRIX_SIZE_pos MATRIX_SIZE_fits); done).
  assert (col = wi.1) as Hcol
    by (apply (of_size_t_exact N MATRIX_SIZE_pos MATRIX_SIZE_fits); done).
  rewrite Hrow, Hcol.
  pose proof (idxA_exact N MATRIX_SIZE_pos MATRIX_SIZE_fits wi.2 k H2 Hk) as HA.
  pose proof (idxB_exact N MATRIX_SIZE_pos MATRIX_SIZE_fits k wi.1 Hk H1) as HB.
  pose proof (idxC_exact N MATRIX_SIZE_pos MATRIX_SIZE_fits wi.2 wi.1 H2 H1) as HC.
  pose proof (offset_bounds N MATRIX_SIZE_pos wi.2 k H2 Hk).
  pose proof (offset_bounds N MATRIX_SIZE_pos k wi.1 Hk H1).
  pose proof (offset_bounds N MATRIX_SIZE_pos wi.2 wi.1 H2 H1).
  rewrite HA, HB, HC.
  assert (N * N = 262144) as HNN by done.
  repeat split; try lia; try done.
  - unfold Int32.mul. apply wrap_in_range.
    by apply (row_in_range N MATRIX_SIZE_pos MATRIX_SIZE_fits).
  - unfold Int32.mul. apply wrap_in_range.
    by apply (row_in_range N MATRIX_SIZE_pos MATRIX_SIZE_fits).
  - by apply (incr_exact N MATRIX_SIZE_pos MATRIX_SIZE_fits).
Qed.

(** ** Binary32 arithmetic on small integers *)

(** [x] is the binary32 number of value [z], an integer below [2^24]:
    zero, or a normal number whose 24-bit mantissa [m] and exponent [e]
    satisfy [m = z * 2^(-e)]. *)
Definition is_int (z : Z) (x : float) : Prop :=
  (z = 0 ∧ x = S754_zero false)
  ∨ (0 < z ∧ ∃ m e, x = S754_finite false m e
                     ∧ Z.log2 (Zpos m) = 23 ∧ e <= 0 ∧ Zpos m = z * 2 ^ (- e)).

Lemma digits2_log2 (m : positive) : Zpos (digits2_pos m) = Z.log2 (Zpos m) + 1.
Proof.
  assert (∀ p, digits2_pos p = Pos.size p) as Hsize
    by (induction p; simpl; congruence).
  destruct m as [p|p|]; simpl; rewrite ?Hsize; lia.
Qed.

Lemma iter_pos_iter {X} (f : X → X) (p : positive) (x : X) :
  SpecFloat.iter_pos f p x = Pos.iter f x p.
Proof.
  revert x. induction p as [p IH|p IH|]; intros x; simpl.
  - by rewrite !IH, !Pos.iter_swap.
  - by rewrite !IH.
  - done.
Qed.

Lemma iter_xO_pow2 (m p : positive) : Zpos (Pos.iter xO m p) = Zpos m * 2 ^ Zpos p.
Proof.
  rewrite (Pos.iter_swap_gen _ _ Zpos xO (Z.mul 2)) by done.
  change (Pos.iter (Z.mul 2) (Zpos m) p) with (Z.shiftl (Zpos m) (Zpos p)).
  by rewrite Z.shiftl_mul_pow2.
Qed.

(** Shifting out zeros is exact. *)
Lemma shr_zeros (m p : positive) :
  SpecFloat.iter_pos shr_1 p (Build_shr_record (Zpos (Pos.iter xO m p)) false false)
  = Build_shr_record (Zpos m) false false.
Proof.
  rewrite iter_pos_iter. induction p as [|p IH] using Pos.peano_ind; [done|].
  rewrite !Pos.iter_succ.
  rewrite <- Pos.iter_swap. simpl. apply IH.
Qed.

(** A mantissa of exactly 24 bits is left alone by the rounding. *)
Lemma round_aux_normal (m : positive) (e : Z) :
  Z.log2 (Zpos m) = 23 → -149 <= e <= 104 →
  binary_round_aux Float32.prec Float32.emax false (Zpos m) e loc_Exact
  = S754_finite false m e.
Proof.
  intros Hm He.
  unfold binary_round_aux, shr_fexp, fexp, emin, Float32.prec, Float32.emax.
  cbn [Zdigits2]. rewrite digits2_log2, Hm.
  replace (Z.max (23 + 1 + e - 24) (3 - 128 - 24) - e) with 0 by lia.
  cbn [shr shr_record_of_loc shr_m loc_of_shr_record round_nearest_even Zdigits2].
  rewrite digits2_log2, Hm.
  replace (Z.max (23 + 1 + e - 24) (3 - 128 - 24) - e) with 0 by lia.
  cbn [shr shr_record_of_loc shr_m].
  destruct (Z.leb_spec e (128 - 24)); [done|lia].
Qed.

(** A longer mantissa whose low bits are zero is shifted down exactly. *)
Lemma round_aux_shift (m p : positive) (e : Z) :
  Z.log2 (Zpos m) = 23 → -149 <= e + Zpos p <= 104 →
  binary_round_aux Float32.prec Float32.emax false (Zpos (Pos.iter xO m p)) e loc_Exact
  = S754_finite false m (e + Zpos p).
Proof.
  intros Hm He.
  assert (Z.log2 (Zpos (Pos.iter xO m p)) = 23 + Zpos p) as Hlog.
  { rewrite iter_xO_pow2, Z.log2_mul_pow2 by lia. lia. }
  unfold binary_round_aux, shr_fexp, fexp, emin, Float32.prec, Float32.emax.
  cbn [Zdigits2]. rewrite digits2_log2, Hlog.
  replace (Z.max (23 + Zpos p + 1 + e - 24) (3 - 128 - 24) - e) with (Zpos p) by lia.
  cbn [shr shr_record_of_loc]. rewrite shr_zeros.
  cbn [shr_m loc_of_shr_record round_nearest_even Zdigits2].
  rewrite digits2_log2, Hm.
  replace (Z.max (23 + 1 + (e + Zpos p) - 24) (3 - 128 - 24) - (e + Zpos p)) with 0 by lia.
  cbn [shr shr_record_of_loc shr_m].
  destruct (Z.leb_spec (e + Zpos p) (128 - 24)); [done|lia].
Qed.

(** Rounding a mantissa-exponent pair whose value is an integer below
    [2^24] and whose mantissa has at least 24 bits yields that integer. *)
Lemma round_aux_int (z : Z) (M : positive) (e : Z) :
  0 < z < 2 ^ 24 → -149 <= e <= 0 → Zpos M = z * 2 ^ (- e) → 23 <= Z.log2 (Zpos M) →
  is_int z (binary_round_aux Float32.prec Float32.emax false (Zpos M) e loc_Exact).
Proof.
  intros Hz He HM Hlog.
  assert (Z.log2 (Zpos M) = Z.log2 z - e) as HlogM
    by (rewrite HM, Z.log2_mul_pow2 by lia; lia).
  assert (Z.log2 z < 24) as Hlz by (apply Z.log2_lt_pow2; lia).
  right. split; [lia|].
  destruct (Z.log2 (Zpos M) - 23) as [|p|p] eqn:Hn; [| |lia].
  - exists M, e. rewrite round_aux_normal by lia. repeat split; try lia.
  - (* the low [p] bits of [M] are zero *)
    assert (0 < z * 2 ^ (- e - Zpos p)) as Hpos
      by (apply Z.mul_pos_pos; [lia|apply Z.pow_pos_nonneg; lia]).
    destruct (z * 2 ^ (- e - Zpos p)) as [|m|m] eqn:Hm; [lia| |lia].
    assert (Zpos M = Zpos m * 2 ^ Zpos p) as HMm.
    { rewrite HM, <- Hm, <- Z.mul_assoc, <- Z.pow_add_r by lia. do 2 f_equal. lia. }
    assert (M = Pos.iter xO m p) as ->
      by (apply (inj Zpos); by rewrite iter_xO_pow2).
    assert (Z.log2 (Zpos m) = 23) as Hlm.
    { rewrite HMm, Z.log2_mul_pow2 in Hn by lia. lia. }
    exists m, (e + Zpos p). rewrite round_aux_shift by lia.
    repeat split; try lia. rewrite <- Hm. do 2 f_equal. lia.
Qed.

Lemma is_int_exponent z m e :
  0 < z → Z.log2 (Zpos m) = 23 → e <= 0 → Zpos m = z * 2 ^ (- e) →
  e = Z.log2 z - 23.
Proof.
  intros Hz Hm He HM. rewrite HM, Z.log2_mul_pow2 in Hm by lia. lia.
Qed.

(** An integer has one representation. *)
Lemma is_int_unique z x y : is_int z x → is_int z y → x = y.
Proof.
  intros [[Hz ->]|[Hz (m & e & -> & Hm & He & HM)]]
         [[Hz' ->]|[Hz' (m' & e' & -> & Hm' & He' & HM')]]; try lia; [done|].
  assert (e = e') as <-.
  { rewrite (is_int_exponent z m e), (is_int_exponent z m' e'); done. }
  f_equal. apply (inj Zpos). congruence.
Qed.

Lemma is_int_bounds z m e :
  0 < z → Z.log2 (Zpos m) = 23 → e <= 0 → Zpos m = z * 2 ^ (- e) → -23 <= e.
Proof.
  intros Hz Hm He HM. pose proof (Z.log2_nonneg z).
  rewrite (is_int_exponent z m e) by done. lia.
Qed.

(** The conversion from [int] is exact below [2^24]. *)
Lemma of_int_is_int z : 0 <= z < 2 ^ 24 → is_int z (Float32.of_int z).
Proof.
  intros Hz. destruct z as [|M|M]; [by left| |lia].
  unfold Float32.of_int, binary_normalize, binary_round, shl_align, fexp, emin,
    Float32.prec, Float32.emax.
  rewrite digits2_log2.
  assert (Z.log2 (Zpos M) < 24) as Hlog by (apply Z.log2_lt_pow2; lia).
  pose proof (Z.log2_nonneg (Zpos M)).
  replace (Z.max (Z.log2 (Zpos M) + 1 + 0 - 24) (3 - 128 - 24) - 0)
    with (Z.log2 (Zpos M) - 23) by lia.
  replace (Z.max (Z.log2 (Zpos M) + 1 + 0 - 24) (3 - 128 - 24))
    with (Z.log2 (Zpos M) - 23) by lia.
  destruct (Z.log2 (Zpos M) - 23) as [|d|d] eqn:Hd; [|lia|].
  - apply round_aux_int; [lia|lia|simpl; lia|lia].
  - apply round_aux_int; [lia|lia| |].
    + rewrite iter_xO_pow2. done.
    + rewrite iter_xO_pow2, Z.log2_mul_pow2 by lia. lia.
Qed.

Lemma shl_align_value m e ez :
  ez <= e → Zpos (shl_align m e ez).1 = Zpos m * 2 ^ (e - ez).
Proof.
  intros Hle. unfold shl_align.
  destruct (ez - e) as [|d|d] eqn:Hd; [|lia|]; simpl.
  - replace (e - ez) with 0 by lia. lia.
  - rewrite iter_xO_pow2. do 2 f_equal. lia.
Qed.

Lemma shl_align_ge m e e' : e <= e' → shl_align m e e' = (m, e).
Proof. intros Hle. unfold shl_align. destruct (e' - e) eqn:Hd; [done|done|lia]. Qed.

(** Sums and products of integers that stay below [2^24] are exact. *)
Lemma add_is_int a b x y :
  is_int a x → is_int b y → a + b < 2 ^ 24 → is_int (a + b) (Float32.add x y).
Proof.
  intros [[-> ->]|[Ha (m & e & -> & Hm & He & HM)]]
         [[-> ->]|[Hb (m' & e' & -> & Hm' & He' & HM')]] Hab.
  - by left.
  - right. split; [lia|]. by exists m', e'.
  - right. split; [lia|]. exists m, e. by rewrite Z.add_0_r.
  - pose proof (is_int_bounds a m e Ha Hm He HM).
    pose proof (is_int_bounds b m' e' Hb Hm' He' HM').
    unfold Float32.add, SFadd. cbn [cond_Zopp]. simpl Z.add.
    unfold binary_normalize, binary_round.
    set (ez := e `min` e').
    assert (Zpos (shl_align m e ez).1 + Zpos (shl_align m' e' ez).1
            = (a + b) * 2 ^ (- ez)) as Hsum.
    { rewrite !shl_align_value by lia. rewrite HM, HM'.
      rewrite <- !Z.mul_assoc, <- !Z.pow_add_r by lia.
      replace (- e + (e - ez)) with (- ez) by lia.
      replace (- e' + (e' - ez)) with (- ez) by lia. lia. }
    assert (2 ^ 23 <= Zpos (shl_align m e ez).1) as Hbig.
    { rewrite shl_align_value by lia.
      pose proof (proj1 (Z.log2_spec (Zpos m) ltac:(lia))) as Hlo.
      rewrite Hm in Hlo.
      pose proof (Z.pow_pos_nonneg 2 (e - ez) ltac:(lia) ltac:(lia)). nia. }
    destruct (Zpos (shl_align m e ez).1 + Zpos (shl_align m' e' ez).1)
      as [|M|M] eqn:HS; [lia| |lia].
    assert (23 <= Z.log2 (Zpos M)) as HlogM.
    { apply Z.log2_le_pow2; lia. }
    rewrite shl_align_ge.
    + apply round_aux_int; [lia|lia|done|done].
    + rewrite digits2_log2. unfold fexp, emin, Float32.prec, Float32.emax. lia.
Qed.

Lemma mul_is_int a b x y :
  is_int a x → is_int b y → a * b < 2 ^ 24 → is_int (a * b) (Float32.mul x y).
Proof.
  intros [[-> ->]|[Ha (m & e & -> & Hm & He & HM)]]
         [[-> ->]|[Hb (m' & e' & -> & Hm' & He' & HM')]] Hab.
  - by left.
  - by left.
  - left. split; [lia|done].
  - pose proof (is_int_bounds a m e Ha Hm He HM).
    pose proof (is_int_bounds b m' e' Hb Hm' He' HM').
    unfold Float32.mul, SFmul. cbn [xorb].
    apply round_aux_int; [nia|lia| |].
    + rewrite Pos2Z.inj_mul, HM, HM', Z.opp_add_distr, Z.pow_add_r by lia. lia.
    + rewrite Pos2Z.inj_mul.
      pose proof (proj1 (Z.log2_spec (Zpos m) ltac:(lia))) as Hlo.
      pose proof (proj1 (Z.log2_spec (Zpos m') ltac:(lia))) as Hlo'.
      rewrite Hm in Hlo. rewrite Hm' in Hlo'.
      apply Z.log2_le_pow2; nia.
Qed.

(** The operations of the kernel on converted integers. *)
Lemma add_of_int a b :
  0 <= a → 0 <= b → a + b < 2 ^ 24 →
  Float32.add (Float32.of_int a) (Float32.of_int b) = Float32.of_int (a + b).
Proof.
  intros Ha Hb Hab. apply (is_int_unique (a + b)).
  - apply add_is_int; [apply of_int_is_int; lia..|done].
  - apply of_int_is_int. lia.
Qed.

Lemma mul_of_int a b :
  0 <= a → 0 <= b → a * b < 2 ^ 24 → a < 2 ^ 24 → b < 2 ^ 24 →
  Float32.mul (Float32.of_int a) (Float32.of_int b) = Float32.of_int (a * b).
Proof.
  intros Ha Hb Hab Ha' Hb'. apply (is_int_unique (a * b)).
  - apply mul_is_int; [apply of_int_is_int; lia..|done].
  - apply of_int_is_int. nia.
Qed.

(** ** The host program, loop by loop *)

(** A counted loop whose body always returns runs its body for
    [i, i+1, ..., bound-1] in turn. [P] is an invariant of the world. *)
Lemma for_loop_spec (P : world → Prop) (body : Z → M unit) (f : Z → world → world)
    (bound : Z) (fuel : nat) (i : Z) (w : world) :
  bound <= Int32.max_signed → Int32.min_signed <= i <= bound →
  (Z.to_nat (bound - i) < fuel)%nat →
  (∀ k w, i <= k < bound → P w → body k w = (Ret tt, f k w) ∧ P (f k w)) →
  P w →
  for_loop fuel i bound body w = (Ret tt, foldl (λ w k, f k w) w (seqZ i (bound - i)))
  ∧ P (foldl (λ w k, f k w) w (seqZ i (bound - i))).
Proof.
  intros Hb. revert i w. induction fuel as [|fuel IH]; intros i w Hi Hfuel Hbody HP; [lia|].
  simpl. destruct (Z.ltb_spec i bound) as [Hlt|Hge].
  - destruct (Hbody i w ltac:(lia) HP) as [Hrun HP'].
    unfold bind at 1. rewrite Hrun.
    assert (Int32.add i 1 = i + 1) as ->.
    { apply wrap_in_range. unfold Int32.in_range, Int32.min_signed, Int32.max_signed in *. lia. }
    rewrite (seqZ_cons i) by lia. simpl.
    replace (Z.pred (bound - i)) with (bound - (i + 1)) by lia.
    replace (Z.succ i) with (i + 1) by lia.
    apply IH; [lia|lia| |done].
    intros k w' Hk. apply Hbody. lia.
  - rewrite seqZ_nil by lia. done.
Qed.

(** *** Initialisation of [A] and [B] *)

(** The generator, unrolled: its state after [n] draws, and the value of
    draw number [n] (from 0). *)
Fixpoint rand_state (env : environment) (n : nat) : Z :=
  match n with
  | O => rng initial_world
  | S n' => (rand_next env (rand_state env n')).2
  end.

Definition rand_value (env : environment) (n : nat) : Z :=
  (rand_next env (rand_state env n)).1.

(** The integers stored into [A] and [B]: the loop draws for [A[i]], then
    for [B[i]]. *)
Definition drawn_A (env : environment) (i : nat) : Z := Z.rem (rand_value env (2 * i)) 100.
Definition drawn_B (env : environment) (i : nat) : Z := Z.rem (rand_value env (2 * i + 1)) 100.

Definition matrix_A (env : environment) (n : nat) : list Z := drawn_A env <$> seq 0 n.
Definition matrix_B (env : environment) (n : nat) : list Z := drawn_B env <$> seq 0 n.

(** The loop of [main] that fills [A] and [B], and one turn of it. *)
Definition init_body (env : environment) (i : Z) : M unit :=
  do r <- rand env;
  host_store MemA i (Float32.of_int (Z.rem r 100)) ;;;
  do r <- rand env;
  host_store MemB i (Float32.of_int (Z.rem r 100)).

Definition init_matrices (env : environment) : M unit :=
  for_loop (S (Z.to_nat (Int32.mul MATRIX_SIZE MATRIX_SIZE))) 0
           (Int32.mul MATRIX_SIZE MATRIX_SIZE) (init_body env).

Definition init_step (env : environment) (i : Z) (w : world) : world :=
  let d1 := rand_next env (rng w) in
  let d2 := rand_next env d1.2 in
  World d2.2
        (Mem3 (<[Z.to_nat i := Float32.of_int (Z.rem d1.1 100)]> (mA (host w)))
              (<[Z.to_nat i := Float32.of_int (Z.rem d2.1 100)]> (mB (host w)))
              (mC (host w)))
        (dev w) (kargs w) (pending w) (stores w) (trace w).

Definition sized (n : Z) (w : world) : Prop :=
  Z.of_nat (length (mA (host w))) = n ∧ Z.of_nat (length (mB (host w))) = n.

Lemma init_body_spec env n i w :
  0 <= i < n → sized n w →
  init_body env i w = (Ret tt, init_step env i w) ∧ sized n (init_step env i w).
Proof.
  intros Hi [HA HB]. split.
  - unfold init_body, init_step, bind, rand, host_store.
    destruct (rand_next env (rng w)) as [r1 s1] eqn:E1. simpl.
    destruct (Z.leb_spec 0 i); [|lia].
    destruct (Z.ltb_spec i (Z.of_nat (length (mA (host w))))); [|lia]. simpl.
    destruct (rand_next env s1) as [r2 s2] eqn:E2. simpl.
    rewrite HB. destruct (Z.ltb_spec i n); [|lia]. done.
  - unfold sized, init_step. simpl. by rewrite !length_insert.
Qed.

(** The world after [k] turns of the loop. *)
Definition init_world (env : environment) (k : nat) (w : world) : world :=
  World (rand_state env (2 * k))
        (Mem3 ((Float32.of_int <$> matrix_A env k) ++ drop k (mA (host w)))
              ((Float32.of_int <$> matrix_B env k) ++ drop k (mB (host w)))
              (mC (host w)))
        (dev w) (kargs w) (pending w) (stores w) (trace w).

Lemma insert_next {X} (l1 l2 : list X) (k : nat) (v : X) :
  length l1 = k → (k < length l2)%nat →
  <[k := v]> (l1 ++ drop k l2) = (l1 ++ [v]) ++ drop (S k) l2.
Proof.
  intros Hl1 Hk. rewrite insert_app_r_alt by lia.
  rewrite Hl1, Nat.sub_diag, <- app_assoc. f_equal.
  destruct (drop k l2) as [|x l] eqn:E.
  - apply (f_equal length) in E. rewrite length_drop in E. simpl in E. lia.
  - simpl. f_equal. replace (S k) with (k + 1)%nat by lia. by rewrite <- drop_drop, E.
Qed.

Lemma init_steps env (k : nat) w :
  rng w = rng initial_world → (k <= length (mA (host w)))%nat →
  (k <= length (mB (host w)))%nat →
  foldl (λ w i, init_step env i w) w (seqZ 0 (Z.of_nat k)) = init_world env k w.
Proof.
  intros Hrng. induction k as [|k IH]; intros HA HB.
  - unfold init_world. simpl. rewrite !drop_0.
    destruct w as [? []]. simpl in *. by rewrite Hrng.
  - rewrite seqZ_S, foldl_snoc, IH by lia.
    unfold init_step, init_world. cbn [rng host mA mB mC dev kargs pending stores trace].
    rewrite Z.add_0_l, Nat2Z.id.
    rewrite !insert_next by (rewrite ?length_fmap; unfold matrix_A, matrix_B;
                             rewrite ?length_fmap, ?length_seq; lia).
    unfold matrix_A, matrix_B. rewrite !seq_S, !fmap_app.
    cbn [fmap list_fmap Nat.add]. unfold drawn_A, drawn_B, rand_value.
    replace (2 * S k)%nat with (S (S (2 * k))) by lia.
    replace (2 * k + 1)%nat with (S (2 * k)) by lia.
    done.
Qed.

(** The number of cells of a matrix, [N * N], as a [nat]. *)
Definition NN : nat := Z.to_nat (MATRIX_SIZE * MATRIX_SIZE).

Lemma NN_Z : Z.of_nat NN = MATRIX_SIZE * MATRIX_SIZE.
Proof. unfold NN. by rewrite Z2Nat.id. Qed.

Lemma mul_N_N : Int32.mul MATRIX_SIZE MATRIX_SIZE = Z.of_nat NN.
Proof. rewrite NN_Z. apply wrap_in_range. by vm_compute. Qed.

Lemma length_matrix_A env n : length (matrix_A env n) = n.
Proof. unfold matrix_A. by rewrite length_fmap, length_seq. Qed.

Lemma length_matrix_B env n : length (matrix_B env n) = n.
Proof. unfold matrix_B. by rewrite length_fmap, length_seq. Qed.

(** The host arrays after the initialisation loop. *)
Definition host_A (env : environment) : buffer := Float32.of_int <$> matrix_A env NN.
Definition host_B (env : environment) : buffer := Float32.of_int <$> matrix_B env NN.

Lemma length_host_A env : Z.of_nat (length (host_A env)) = MATRIX_SIZE * MATRIX_SIZE.
Proof. unfold host_A. by rewrite length_fmap, length_matrix_A, NN_Z. Qed.

Lemma length_host_B env : Z.of_nat (length (host_B env)) = MATRIX_SIZE * MATRIX_SIZE.
Proof. unfold host_B. by rewrite length_fmap, length_matrix_B, NN_Z. Qed.

Lemma init_matrices_spec env w :
  rng w = rng initial_world →
  length (mA (host w)) = NN → length (mB (host w)) = NN →
  init_matrices env w
  = (Ret tt, World (rand_state env (2 * NN)) (Mem3 (host_A env) (host_B env) (mC (host w)))
                   (dev w) (kargs w) (pending w) (stores w) (trace w)).
Proof.
  intros Hrng HA HB. unfold init_matrices. rewrite mul_N_N.
  destruct (for_loop_spec (sized (Z.of_nat NN)) (init_body env) (init_step env)
              (Z.of_nat NN) (S (Z.to_nat (Z.of_nat NN))) 0 w) as [-> _].
  - rewrite NN_Z. by vm_compute.
  - unfold Int32.min_signed. lia.
  - lia.
  - intros k w' Hk. apply init_body_spec. lia.
  - unfold sized. lia.
  - rewrite Z.sub_0_r, init_steps by lia. unfold init_world, host_A, host_B.
    by rewrite !drop_ge, !app_nil_r by lia.
Qed.

(** *** Printing the corner *)

Definition print_cell (env : environment) (i j : Z) : M unit :=
  do v <- host_load MemC (Int32.add (Int32.mul i MATRIX_SIZE) j);
  printf (fmt_f env v +:+ " ").

Definition print_row (env : environment) (i : Z) : M unit :=
  for_loop 11 0 10 (print_cell env i) ;;; printf nl.

Definition print_corner (env : environment) : M unit :=
  for_loop 11 0 10 (print_row env).

(** What is printed for the cell [(i, j)] of [C], and the events of a row
    and of the whole corner. *)
Definition cell_text (env : environment) (C : buffer) (i j : Z) : string :=
  fmt_f env (ref_cell C (i * MATRIX_SIZE + j)) +:+ " ".

Definition row_events (env : environment) (C : buffer) (i : Z) : list event :=
  ((λ j, EvStdout (cell_text env C i j)) <$> seqZ 0 10) ++ [EvStdout nl].

Definition corner_events (env : environment) (C : buffer) : list event :=
  seqZ 0 10 ≫= row_events env C.

Definition emit_all (evs : list event) (w : world) : world :=
  World (rng w) (host w) (dev w) (kargs w) (pending w) (stores w) (reverse evs ++ trace w).

Lemma emit_all_nil w : emit_all [] w = w.
Proof. by destruct w. Qed.

Lemma emit_emit_all e evs w : emit e (emit_all evs w) = emit_all (evs ++ [e]) w.
Proof. unfold emit, emit_all. simpl. by rewrite reverse_snoc. Qed.

Lemma emit_all_app evs1 evs2 w : emit_all evs2 (emit_all evs1 w) = emit_all (evs1 ++ evs2) w.
Proof. unfold emit_all. simpl. by rewrite reverse_app, app_assoc. Qed.

Lemma foldl_emit {X} (g : X → event) (l : list X) w :
  foldl (λ w x, emit (g x) w) w l = emit_all (g <$> l) w.
Proof.
  induction l as [|x l IH] using rev_ind; [by rewrite emit_all_nil|].
  by rewrite foldl_snoc, IH, fmap_app, emit_emit_all.
Qed.

Lemma foldl_emit_all {X} (g : X → list event) (l : list X) w :
  foldl (λ w x, emit_all (g x) w) w l = emit_all (l ≫= g) w.
Proof.
  induction l as [|x l IH] using rev_ind; [by rewrite emit_all_nil|].
  rewrite foldl_snoc, IH, emit_all_app, bind_app. simpl. by rewrite app_nil_r.
Qed.

Lemma print_cell_spec env i j w :
  0 <= i < 10 → 0 <= j < 10 →
  Z.of_nat (length (mC (host w))) = MATRIX_SIZE * MATRIX_SIZE →
  print_cell env i j w = (Ret tt, emit (EvStdout (cell_text env (mC (host w)) i j)) w).
Proof.
  intros Hi Hj HC. unfold print_cell, bind, host_load, printf, modify, cell_text.
  rewrite (int_offset MATRIX_SIZE MATRIX_SIZE_pos MATRIX_SIZE_fits)
    by (unfold MATRIX_SIZE; lia).
  cbn [mget]. rewrite load_in_bounds; [done|].
  rewrite HC. unfold MATRIX_SIZE. lia.
Qed.

Lemma print_row_spec env i w :
  0 <= i < 10 →
  Z.of_nat (length (mC (host w))) = MATRIX_SIZE * MATRIX_SIZE →
  print_row env i w = (Ret tt, emit_all (row_events env (mC (host w)) i) w).
Proof.
  intros Hi HC. unfold print_row, bind.
  destruct (for_loop_spec (λ w', host w' = host w) (print_cell env i)
              (λ j w', emit (EvStdout (cell_text env (mC (host w)) i j)) w')
              10 11 0 w) as [-> _]; [done|done|simpl; lia| |done|].
  - intros j w' Hj Hw'. split; [|done].
    rewrite print_cell_spec by (rewrite ?Hw'; done). by rewrite Hw'.
  - unfold printf, modify. rewrite foldl_emit, emit_emit_all. done.
Qed.

Lemma print_corner_spec env w :
  Z.of_nat (length (mC (host w))) = MATRIX_SIZE * MATRIX_SIZE →
  print_corner env w = (Ret tt, emit_all (corner_events env (mC (host w))) w).
Proof.
  intros HC. unfold print_corner.
  destruct (for_loop_spec (λ w', host w' = host w) (print_row env)
              (λ i w', emit_all (row_events env (mC (host w)) i) w')
              10 11 0 w) as [-> _]; [done|done|simpl; lia| |done|].
  - intros i w' Hi Hw'. split; [|done].
    rewrite print_row_spec by (rewrite ?Hw'; done). by rewrite Hw'.
  - by rewrite foldl_emit_all.
Qed.

(** *** The sequence of API calls *)

(** [main], with its three loops named. *)
Definition api_sequence (env : environment) : M Z :=
  let N := MATRIX_SIZE in
  let bytes := Int32.mul N N * sizeof_float in
  do err <- call env clGetPlatformIDs;
  checkError err "Getting platform" ;;;
  do err <- call env clGetDeviceIDs;
  checkError err "Getting device" ;;;
  do err <- call env clCreateContext;
  checkError err "Creating context" ;;;
  do err <- call env clCreateCommandQueue;
  checkError err "Creating command queue" ;;;
  do err <- call env (clCreateBuffer MemA bytes);
  checkError err "Creating buffer A" ;;;
  do err <- call env (clCreateBuffer MemB bytes);
  checkError err "Creating buffer B" ;;;
  do err <- call env (clCreateBuffer MemC bytes);
  checkError err "Creating buffer C" ;;;
  do err <- call env (clEnqueueWriteBuffer MemA CL_TRUE);
  checkError err "Copying A to device" ;;;
  do err <- call env (clEnqueueWriteBuffer MemB CL_TRUE);
  checkError err "Copying B to device" ;;;
  do err <- call env clCreateProgramWithSource;
  checkError err "Creating program" ;;;
  do err <- call env clBuildProgram;
  (if negb (err =? CL_SUCCESS) then
     do _ <- call env clGetProgramBuildInfo;
     fprintf_stderr ("CL Compilation failed:" +:+ nl +:+ build_log env +:+ nl) ;;;
     exit 1
   else ret tt) ;;;
  do err <- call env clCreateKernel;
  checkError err "Creating kernel" ;;;
  do err <- call env (clSetKernelArg 0 (ArgMem MemA));
  checkError err "Setting kernel arg 0" ;;;
  do err <- call env (clSetKernelArg 1 (ArgMem MemB));
  checkError err "Setting kernel arg 1" ;;;
  do err <- call env (clSetKernelArg 2 (ArgMem MemC));
  checkError err "Setting kernel arg 2" ;;;
  do err <- call env (clSetKernelArg 3 (ArgInt N));
  checkError err "Setting kernel arg 3" ;;;
  do err <- call env (clEnqueueNDRangeKernel N N 16 16);
  checkError err "Enqueueing kernel" ;;;
  do err <- call env (clEnqueueReadBuffer MemC CL_TRUE);
  checkError err "Reading result" ;;;
  print_corner env ;;;
  do _ <- call env (clReleaseMemObject MemA);
  do _ <- call env (clReleaseMemObject MemB);
  do _ <- call env (clReleaseMemObject MemC);
  do _ <- call env clReleaseKernel;
  do _ <- call env clReleaseProgram;
  do _ <- call env clReleaseCommandQueue;
  do _ <- call env clReleaseContext;
  free MemA ;;;
  free MemB ;;;
  free MemC ;;;
  ret 0.

Lemma main_unfold env :
  main env
  = (malloc env MemA (Int32.mul MATRIX_SIZE MATRIX_SIZE * sizeof_float) ;;;
     malloc env MemB (Int32.mul MATRIX_SIZE MATRIX_SIZE * sizeof_float) ;;;
     malloc env MemC (Int32.mul MATRIX_SIZE MATRIX_SIZE * sizeof_float) ;;;
     init_matrices env ;;;
     api_sequence env).
Proof. reflexivity. Qed.

(** A fresh block of [N * N] floats. *)
Definition fresh (u : Z → float) : buffer := u <$> seqZ 0 (MATRIX_SIZE * MATRIX_SIZE).

Lemma length_fresh u : Z.of_nat (length (fresh u)) = MATRIX_SIZE * MATRIX_SIZE.
Proof. unfold fresh. rewrite length_fmap, length_seqZ. by rewrite Z2Nat.id. Qed.

Lemma bytes_floats :
  Int32.mul MATRIX_SIZE MATRIX_SIZE * sizeof_float / sizeof_float = MATRIX_SIZE * MATRIX_SIZE.
Proof. by vm_compute. Qed.

Lemma malloc_spec env h w :
  malloc env h (Int32.mul MATRIX_SIZE MATRIX_SIZE * sizeof_float) w
  = (Ret tt, emit (EvMalloc h) (set_host (mset (host w) h (fresh (host_uninit env h))) w)).
Proof. unfold malloc, modify, fresh. by rewrite bytes_floats. Qed.

(** The world when the first API call is made. *)
Definition world_filled (env : environment) : world :=
  World (rand_state env (2 * NN))
        (Mem3 (host_A env) (host_B env) (fresh (host_uninit env MemC)))
        (Mem3 [] [] []) [None; None; None; None] [] []
        [EvMalloc MemC; EvMalloc MemB; EvMalloc MemA].

Ltac world_simpl :=
  unfold emit, set_rng, set_host, set_dev, set_kargs, set_pending, set_stores;
  cbn [rng host dev kargs pending stores trace mget mset mA mB mC].

Lemma run_filled env : run env = api_sequence env (world_filled env).
Proof.
  unfold run. rewrite main_unfold. unfold bind at 1 2 3 4.
  rewrite !malloc_spec. unfold initial_world. world_simpl.
  rewrite init_matrices_spec; [done|done|..];
    cbn [host mA mB]; apply Nat2Z.inj; by rewrite length_fresh, NN_Z.
Qed.

(** The calls whose status [main] tests: all but the query of the build
    log and the releases. *)
Definition tested (c : api_call) : bool :=
  match c with
  | clGetProgramBuildInfo | clReleaseMemObject _ | clReleaseKernel
  | clReleaseProgram | clReleaseCommandQueue | clReleaseContext => false
  | _ => true
  end.

(** Every tested call succeeds. *)
Definition succeeds (env : environment) : Prop :=
  ∀ c, tested c = true → cl_status env c = CL_SUCCESS.

(** The device runs every work-item of a launch once, in some order. *)
Definition fair (env : environment) : Prop :=
  ∀ l, reorder env l ≡ₚ l.

(** *** Equations of the monad and of the queue *)

Lemma bind_ret_l {X Y} (a : X) (k : X → M Y) w : bind (ret a) k w = k a w.
Proof. done. Qed.

Lemma bind_modify {Y} f (k : unit → M Y) w : bind (modify f) k w = k tt (f w).
Proof. done. Qed.

Lemma bind_gets {X Y} (f : world → X) (k : X → M Y) w : bind (gets f) k w = k (f w) w.
Proof. done. Qed.

Lemma bind_bind {X Y Z'} (m : M X) (f : X → M Y) (g : Y → M Z') w :
  bind (bind m f) g w = bind m (λ x, bind (f x) g) w.
Proof. unfold bind. by destruct (m w) as [[x| |] w']. Qed.

Lemma bind_enqueue {Y} env cmd blocking (k : unit → M Y) w :
  bind (enqueue env cmd blocking) k w
  = (if blocking || eager env
     then bind (exec_all env (pending w ++ [cmd])) k (set_pending [] w)
     else k tt (set_pending (pending w ++ [cmd]) w)).
Proof.
  unfold enqueue. rewrite bind_bind, bind_modify.
  destruct (blocking || eager env); [|done].
  unfold bind, finish. by destruct w.
Qed.

Lemma bind_enqueue_sync {Y} env cmd (k : unit → M Y) w :
  bind (enqueue env cmd true) k w
  = bind (exec_all env (pending w ++ [cmd])) k (set_pending [] w).
Proof. by rewrite bind_enqueue. Qed.

Lemma bind_enqueue_eager {Y} env cmd blocking (k : unit → M Y) w :
  eager env = true →
  bind (enqueue env cmd blocking) k w
  = bind (exec_all env (pending w ++ [cmd])) k (set_pending [] w).
Proof. intros He. rewrite bind_enqueue, He. by destruct blocking. Qed.

Lemma bind_enqueue_lazy {Y} env cmd (k : unit → M Y) w :
  eager env = false →
  bind (enqueue env cmd false) k w = k tt (set_pending (pending w ++ [cmd]) w).
Proof. intros He. by rewrite bind_enqueue, He. Qed.

Lemma bind_exec_nil {Y} env (k : unit → M Y) w : bind (exec_all env []) k w = k tt w.
Proof. done. Qed.

Lemma bind_exec_cons {Y} env cmd cmds (k : unit → M Y) w :
  bind (exec_all env (cmd :: cmds)) k w
  = bind (exec env cmd) (λ _, bind (exec_all env cmds) k) w.
Proof. cbn [exec_all]. by rewrite bind_bind. Qed.

Lemma bind_exec_write {Y} env b (k : unit → M Y) w :
  bind (exec env (CmdWrite b)) k w
  = k tt (emit (EvComplete (CmdWrite b)) (set_dev (mset (dev w) b (mget (host w) b)) w)).
Proof. done. Qed.

Lemma bind_exec_read {Y} env b (k : unit → M Y) w :
  bind (exec env (CmdRead b)) k w
  = k tt (emit (EvComplete (CmdRead b)) (set_host (mset (host w) b (mget (dev w) b)) w)).
Proof. done. Qed.

(** The kernel command of the program, on a device whose buffers have
    the right size. *)
Lemma bind_exec_kernel {Y} env (k : unit → M Y) w :
  fair env →
  Z.of_nat (length (mA (dev w))) = MATRIX_SIZE * MATRIX_SIZE →
  Z.of_nat (length (mB (dev w))) = MATRIX_SIZE * MATRIX_SIZE →
  Z.of_nat (length (mC (dev w))) = MATRIX_SIZE * MATRIX_SIZE →
  let cmd := CmdKernel [Some (ArgMem MemA); Some (ArgMem MemB); Some (ArgMem MemC);
                        Some (ArgInt MATRIX_SIZE)] MATRIX_SIZE MATRIX_SIZE in
  bind (exec env cmd) k w
  = k tt (emit (EvComplete cmd)
            (set_stores (reverse (offset_of MATRIX_SIZE
                                    <$> reorder env (ndrange MATRIX_SIZE MATRIX_SIZE)))
               (set_dev (mset (dev w) MemC
                           (reference_matmul (mA (dev w)) (mB (dev w)) MATRIX_SIZE (mC (dev w))))
                  w))).
Proof.
  intros Hfair HA HB HC cmd. unfold bind, exec, cmd. cbn [mget].
  by rewrite (launch_result MATRIX_SIZE MATRIX_SIZE_pos MATRIX_SIZE_fits _ _ HA HB _ _
                (Hfair _) HC).
Qed.

(** ** Runs of the program *)

Definition error_line (operation : string) (err : Z) : string :=
  "Error during operation '" +:+ operation +:+ "': " +:+ fmt_d err +:+ nl.

Section Steps.

Variable env : environment.

(** A checked call that succeeds takes effect and the program goes on. *)
Lemma step_ok {X} c name (k : M X) w :
  cl_status env c = CL_SUCCESS →
  (do err <- call env c; checkError err name ;;; k) w
  = (api_effect env c ;;; k) (emit (EvCall c CL_SUCCESS) w).
Proof.
  intros Hc. unfold bind at 1, call. rewrite Hc. simpl.
  unfold bind. destruct (api_effect env c _) as [[[]| |] w']; done.
Qed.

(** A checked call that fails: one line on standard error, [exit(1)]. *)
Lemma step_fail {X} c name (k : M X) w :
  cl_status env c ≠ CL_SUCCESS →
  (do err <- call env c; checkError err name ;;; k) w
  = (Exit 1, emit (EvStderr (error_line name (cl_status env c)))
               (emit (EvCall c (cl_status env c)) w)).
Proof.
  intros Hc. unfold bind at 1, call.
  destruct (Z.eqb_spec (cl_status env c) CL_SUCCESS) as [|_]; [done|].
  unfold bind, checkError, fprintf_stderr, modify, exit, error_line.
  destruct (Z.eqb_spec (cl_status env c) CL_SUCCESS) as [|_]; [done|]. done.
Qed.

(** A call whose status is ignored and that has no effect in the model. *)
Lemma step_ignored {X} c (k : M X) w :
  api_effect env c = ret tt →
  (do _ <- call env c; k) w = k (emit (EvCall c (cl_status env c)) w).
Proof.
  intros Hc. unfold bind at 1, call. rewrite Hc.
  by destruct (cl_status env c =? CL_SUCCESS).
Qed.

(** The build step has a test of its own. *)
Lemma build_ok {X} (onfail : M unit) (k : M X) w :
  cl_status env clBuildProgram = CL_SUCCESS →
  (do err <- call env clBuildProgram;
   (if negb (err =? CL_SUCCESS) then onfail else ret tt) ;;; k) w
  = k (emit (EvCall clBuildProgram CL_SUCCESS) w).
Proof. intros Hc. unfold bind at 1, call. by rewrite Hc. Qed.

Lemma build_fail {X} (k : M X) w :
  cl_status env clBuildProgram ≠ CL_SUCCESS →
  (do err <- call env clBuildProgram;
   (if negb (err =? CL_SUCCESS) then
      do _ <- call env clGetProgramBuildInfo;
      fprintf_stderr ("CL Compilation failed:" +:+ nl +:+ build_log env +:+ nl) ;;;
      exit 1
    else ret tt) ;;; k) w
  = (Exit 1,
     emit (EvStderr ("CL Compilation failed:" +:+ nl +:+ build_log env +:+ nl))
       (emit (EvCall clGetProgramBuildInfo (cl_status env clGetProgramBuildInfo))
          (emit (EvCall clBuildProgram (cl_status env clBuildProgram)) w))).
Proof.
  intros Hc. unfold bind at 1. unfold call at 1.
  destruct (Z.eqb_spec (cl_status env clBuildProgram) CL_SUCCESS) as [|_]; [done|].
  destruct (Z.eqb_spec (cl_status env clBuildProgram) CL_SUCCESS) as [|_]; [done|].
  cbn [negb]. rewrite bind_bind, step_ignored by done. done.
Qed.

End Steps.

Ltac ok_step H :=
  match goal with
  | |- context [bind (call ?env ?c) _ _] =>
      rewrite (step_ok env c) by (apply H; reflexivity)
  end.

(** The size in bytes of a matrix, as [main] computes it. *)
Definition matrix_bytes : Z := Int32.mul MATRIX_SIZE MATRIX_SIZE * sizeof_float.

(** The kernel command that [main] enqueues. *)
Definition kernel_cmd : command :=
  CmdKernel [Some (ArgMem MemA); Some (ArgMem MemB); Some (ArgMem MemC);
             Some (ArgInt MATRIX_SIZE)] MATRIX_SIZE MATRIX_SIZE.

(** The matrix the device computes: the reference product of the two
    filled matrices. *)
Definition product (env : environment) : buffer :=
  reference_matmul (host_A env) (host_B env) MATRIX_SIZE (fresh (dev_uninit env MemC)).

(** The events of a run in which every tested call succeeds, oldest first:
    up to the launch, around the completion of the kernel, and the releases. *)
Definition events_setup : list event :=
  [EvMalloc MemA; EvMalloc MemB; EvMalloc MemC;
   EvCall clGetPlatformIDs CL_SUCCESS;
   EvCall clGetDeviceIDs CL_SUCCESS;
   EvCall clCreateContext CL_SUCCESS;
   EvCall clCreateCommandQueue CL_SUCCESS;
   EvCall (clCreateBuffer MemA matrix_bytes) CL_SUCCESS;
   EvCall (clCreateBuffer MemB matrix_bytes) CL_SUCCESS;
   EvCall (clCreateBuffer MemC matrix_bytes) CL_SUCCESS;
   EvCall (clEnqueueWriteBuffer MemA true) CL_SUCCESS;
   EvComplete (CmdWrite MemA);
   EvCall (clEnqueueWriteBuffer MemB true) CL_SUCCESS;
   EvComplete (CmdWrite MemB);
   EvCall clCreateProgramWithSource CL_SUCCESS;
   EvCall clBuildProgram CL_SUCCESS;
   EvCall clCreateKernel CL_SUCCESS;
   EvCall (clSetKernelArg 0 (ArgMem MemA)) CL_SUCCESS;
   EvCall (clSetKernelArg 1 (ArgMem MemB)) CL_SUCCESS;
   EvCall (clSetKernelArg 2 (ArgMem MemC)) CL_SUCCESS;
   EvCall (clSetKernelArg 3 (ArgInt MATRIX_SIZE)) CL_SUCCESS;
   EvCall (clEnqueueNDRangeKernel MATRIX_SIZE MATRIX_SIZE 16 16) CL_SUCCESS].

Definition events_compute (env : environment) : list event :=
  if eager env
  then [EvComplete kernel_cmd;
        EvCall (clEnqueueReadBuffer MemC true) CL_SUCCESS;
        EvComplete (CmdRead MemC)]
  else [EvCall (clEnqueueReadBuffer MemC true) CL_SUCCESS;
        EvComplete kernel_cmd;
        EvComplete (CmdRead MemC)].

Definition released (env : environment) (c : api_call) : event := EvCall c (cl_status env c).

Definition events_cleanup (env : environment) : list event :=
  [released env (clReleaseMemObject MemA);
   released env (clReleaseMemObject MemB);
   released env (clReleaseMemObject MemC);
   released env clReleaseKernel;
   released env clReleaseProgram;
   released env clReleaseCommandQueue;
   released env clReleaseContext;
   EvFree MemA; EvFree MemB; EvFree MemC].

Definition events_success (env : environment) : list event :=
  events_setup ++ events_compute env ++ corner_events env (product env)
  ++ events_cleanup env.

(** The world such a run ends in. *)
Definition world_done (env : environment) : world :=
  World (rand_state env (2 * NN))
        (Mem3 (host_A env) (host_B env) (product env))
        (Mem3 (host_A env) (host_B env) (product env))
        [Some (ArgMem MemA); Some (ArgMem MemB); Some (ArgMem MemC); Some (ArgInt MATRIX_SIZE)]
        []
        (reverse (offset_of MATRIX_SIZE <$> reorder env (ndrange MATRIX_SIZE MATRIX_SIZE)))
        (reverse (events_success env)).

Lemma fresh_eq u : u <$> seqZ 0 (matrix_bytes / sizeof_float) = fresh u.
Proof. unfold fresh, matrix_bytes. by rewrite bytes_floats. Qed.

Lemma length_foldl_insert {X Y} (g : Y → nat) (v : Y → X) (l : list Y) (c : list X) :
  length (foldl (λ c y, <[g y := v y]> c) c l) = length c.
Proof.
  induction l as [|y l IH] using rev_ind; [done|].
  by rewrite foldl_snoc, length_insert.
Qed.

Lemma length_reference A B N C : length (reference_matmul A B N C) = length C.
Proof.
  unfold reference_matmul. generalize (seqZ 0 N) at 2. intros l.
  induction l as [|i l IH] using rev_ind; [done|].
  rewrite foldl_snoc.
  by rewrite (length_foldl_insert (λ j, Z.to_nat (i * N + j)) (λ j, ref_dot A B N i j)).
Qed.

Lemma length_product env : Z.of_nat (length (product env)) = MATRIX_SIZE * MATRIX_SIZE.
Proof. unfold product. by rewrite length_reference, length_fresh. Qed.

Ltac run_effect :=
  cbn [api_effect];
  repeat progress
    (rewrite ?bind_ret_l, ?bind_modify, ?bind_gets, ?bind_bind, ?bind_enqueue,
       ?bind_exec_nil, ?bind_exec_cons, ?bind_exec_write, ?bind_exec_read, ?fresh_eq;
     unfold CL_TRUE;
     cbn [orb app insert list_insert Z.to_nat Pos.to_nat Pos.iter_op Nat.add];
     world_simpl).

Lemma kargs_bound :
  <[Z.to_nat 3 := Some (ArgInt MATRIX_SIZE)]>
    (<[Z.to_nat 2 := Some (ArgMem MemC)]>
       (<[Z.to_nat 1 := Some (ArgMem MemB)]>
          (<[Z.to_nat 0 := Some (ArgMem MemA)]> [None; None; None; None])))
  = [Some (ArgMem MemA); Some (ArgMem MemB); Some (ArgMem MemC); Some (ArgInt MATRIX_SIZE)].
Proof. reflexivity. Qed.

Lemma product_eq env :
  reference_matmul (host_A env) (host_B env) MATRIX_SIZE (fresh (dev_uninit env MemC))
  = product env.
Proof. unfold product. exact eq_refl. Qed.

Lemma kernel_cmd_eq :
  CmdKernel [Some (ArgMem MemA); Some (ArgMem MemB); Some (ArgMem MemC);
             Some (ArgInt MATRIX_SIZE)] MATRIX_SIZE MATRIX_SIZE = kernel_cmd.
Proof. unfold kernel_cmd. exact eq_refl. Qed.

Opaque NN fresh host_A host_B product ndrange reference_matmul.

Lemma bind_print_corner {Y} env (k : unit → M Y) w :
  Z.of_nat (length (mC (host w))) = MATRIX_SIZE * MATRIX_SIZE →
  bind (print_corner env) k w = k tt (emit_all (corner_events env (mC (host w))) w).
Proof. intros HC. unfold bind. by rewrite print_corner_spec. Qed.

Lemma bind_free {Y} h (k : unit → M Y) w : bind (free h) k w = k tt (emit (EvFree h) w).
Proof. done. Qed.

Lemma reverse_events pre (a b c : event) post (evs : list event) :
  reverse (pre ++ a :: b :: c :: evs ++ post)
  = reverse post ++ reverse evs ++ [c; b; a] ++ reverse pre.
Proof.
  change (a :: b :: c :: evs ++ post) with ([a; b; c] ++ evs ++ post).
  by rewrite !reverse_app, <- !app_assoc.
Qed.

Ltac finish_run :=
  rewrite bind_print_corner by (cbn [host mC]; assumption);
  unfold emit_all; world_simpl;
  repeat (rewrite step_ignored by reflexivity; world_simpl);
  repeat (rewrite bind_free; world_simpl);
  unfold ret; rewrite reverse_events;
  reflexivity.

Lemma success_run env :
  succeeds env → fair env → api_sequence env (world_filled env) = (Ret 0, world_done env).
Proof.
  intros Hok Hfair. unfold api_sequence, world_filled.
  fold matrix_bytes.
  do 10 (ok_step Hok; run_effect).
  rewrite build_ok by (apply Hok; reflexivity).
  do 5 (ok_step Hok; run_effect).
  ok_step Hok. run_effect. rewrite !kargs_bound.
  pose proof (length_host_A env) as HA. pose proof (length_host_B env) as HB.
  pose proof (length_fresh (dev_uninit env MemC)) as HC.
  pose proof (length_product env) as HP.
  unfold world_done, events_success, events_compute.
  destruct (eager env).
  - rewrite bind_exec_kernel by (try exact Hfair; cbn [dev mA mB mC]; assumption).
    run_effect. rewrite !product_eq, !kernel_cmd_eq.
    ok_step Hok. run_effect. finish_run.
  - ok_step Hok. run_effect.
    rewrite bind_exec_kernel by (try exact Hfair; cbn [dev mA mB mC]; assumption).
    run_effect. rewrite !product_eq, !kernel_cmd_eq.
    finish_run.
Qed.

(** ** What a run shows *)

Definition stdout_text (e : event) : option string :=
  match e with EvStdout s => Some s | _ => None end.

Definition stderr_text (e : event) : option string :=
  match e with EvStderr s => Some s | _ => None end.

Definition call_of (e : event) : option api_call :=
  match e with EvCall c _ => Some c | _ => None end.

Definition join (l : list string) : string := foldr String.append EmptyString l.

(** Standard output, standard error and the API calls of a run. *)
Definition stdout (env : environment) : string := join (omap stdout_text (events env)).
Definition stderr (env : environment) : string := join (omap stderr_text (events env)).
Definition calls (env : environment) : list api_call := omap call_of (events env).

(** A row of the printed corner: ten values, each followed by a space,
    then a newline; and the corner, ten rows. [v i j] is the value of cell
    [(i, j)]. *)
Definition row_text (env : environment) (v : Z → Z → float) (i : Z) : list string :=
  ((λ j, fmt_f env (v i j) +:+ " ") <$> seqZ 0 10) ++ [nl].

Definition corner_text (env : environment) (v : Z → Z → float) : string :=
  join (seqZ 0 10 ≫= row_text env v).

Lemma run_success env :
  succeeds env → fair env → run env = (Ret 0, world_done env).
Proof. intros Hok Hfair. rewrite run_filled. by apply success_run. Qed.

Lemma events_of_success env :
  succeeds env → fair env → events env = events_success env.
Proof.
  intros Hok Hfair. unfold events. rewrite run_success by done.
  unfold world_done. cbn [snd trace]. apply reverse_involutive.
Qed.

Lemma omap_bind {X Y Z'} (f : Y → option Z') (g : X → list Y) (l : list X) :
  omap f (l ≫= g) = l ≫= (λ x, omap f (g x)).
Proof.
  induction l as [|x l IH]; [done|].
  by rewrite !bind_cons, omap_app, IH.
Qed.

Lemma omap_stdout_fmap {X} (h : X → string) (l : list X) :
  omap stdout_text ((λ x, EvStdout (h x)) <$> l) = h <$> l.
Proof. induction l as [|x l IH]; [done|]. csimpl. by rewrite IH. Qed.

Lemma stdout_row env C i :
  omap stdout_text (row_events env C i)
  = row_text env (λ i j, ref_cell C (i * MATRIX_SIZE + j)) i.
Proof.
  unfold row_events, row_text. rewrite omap_app, omap_stdout_fmap. done.
Qed.

Lemma stdout_corner env C :
  omap stdout_text (corner_events env C)
  = seqZ 0 10 ≫= row_text env (λ i j, ref_cell C (i * MATRIX_SIZE + j)).
Proof.
  unfold corner_events. rewrite omap_bind.
  apply list_bind_ext; [|done]. intros i. apply stdout_row.
Qed.

Lemma row_text_ext env v1 v2 i :
  (∀ j, 0 <= j < 10 → v1 i j = v2 i j) → row_text env v1 i = row_text env v2 i.
Proof.
  intros Hv. unfold row_text. f_equal. apply list_fmap_ext.
  intros k j Hj. apply lookup_seqZ in Hj. rewrite Hv; [done|lia].
Qed.

Lemma corner_text_ext env v1 v2 :
  (∀ i j, 0 <= i < 10 → 0 <= j < 10 → v1 i j = v2 i j) →
  seqZ 0 10 ≫= row_text env v1 = seqZ 0 10 ≫= row_text env v2.
Proof.
  intros Hv. generalize (λ i, proj1 (elem_of_seqZ 0 10 i)).
  generalize (seqZ 0 10). intros l Hl.
  induction l as [|i l IH]; [done|].
  rewrite !bind_cons, IH by (intros k Hk; apply Hl; by right).
  f_equal. apply row_text_ext. intros j Hj. apply Hv; [|done].
  specialize (Hl i ltac:(left)). lia.
Qed.

(** The cells of the product are the dot products of the reference. *)
Lemma product_cell env i j :
  0 <= i < MATRIX_SIZE → 0 <= j < MATRIX_SIZE →
  product env !! Z.to_nat (i * MATRIX_SIZE + j)
  = Some (ref_dot (host_A env) (host_B env) MATRIX_SIZE i j).
Proof.
  intros Hi Hj.
  destruct (launch_ndrange MATRIX_SIZE MATRIX_SIZE_pos MATRIX_SIZE_fits
              (host_A env) (host_B env) (length_host_A env) (length_host_B env)
              (ndrange MATRIX_SIZE MATRIX_SIZE) (fresh (dev_uninit env MemC))
              (reflexivity _) (length_fresh _)) as (C' & _ & Hcells & _ & Hall).
  rewrite <- product_eq, <- Hcells. by apply Hall.
Qed.

Lemma product_ref_cell env i j :
  0 <= i < MATRIX_SIZE → 0 <= j < MATRIX_SIZE →
  ref_cell (product env) (i * MATRIX_SIZE + j)
  = ref_dot (host_A env) (host_B env) MATRIX_SIZE i j.
Proof. intros Hi Hj. unfold ref_cell. by rewrite product_cell. Qed.

(** ** A concrete environment *)

(** The sample implementation of [rand] in the C standard. *)
Definition lcg_rand (s : Z) : Z * Z :=
  let s' := (s * 1103515245 + 12345) mod 2 ^ 32 in
  ((s' / 65536) mod 32768, s').

(** [%f]: six decimals, rounded to nearest even. *)
Definition pad6 (r : Z) : string :=
  match fmt_d (1000000 + r) with
  | String _ rest => rest
  | EmptyString => EmptyString
  end.

Definition micro (m : positive) (e : Z) : Z :=
  if 0 <=? e then Zpos m * 2 ^ e * 1000000
  else
    let num := Zpos m * 1000000 in
    let den := 2 ^ (- e) in
    let q := num / den in
    let r := num mod den in
    if (den <? 2 * r) || ((den =? 2 * r) && Z.odd q) then q + 1 else q.

Definition printf_f (x : float) : string :=
  match x with
  | S754_zero s => (if s then "-" else EmptyString) +:+ "0.000000"
  | S754_infinity s => if s then "-inf" else "inf"
  | S754_nan => "nan"
  | S754_finite s m e =>
      (if s then "-" else EmptyString)
      +:+ fmt_d (micro m e / 1000000) +:+ "." +:+ pad6 (micro m e mod 1000000)
  end.

(** Every call succeeds, the device is lazy and runs the work-items in
    the order of the index space, fresh memory is zero. *)
Definition env_ok : environment :=
  Environment (λ _, CL_SUCCESS) EmptyString (λ l, l) false
              (λ _ _, Float32.zero) (λ _ _, Float32.zero) lcg_rand printf_f.

Example printf_f_examples :
  printf_f (Float32.of_int 9801) = "9801.000000"
  ∧ printf_f (Float32.of_int 0) = "0.000000"
  ∧ printf_f (S754_finite false 12582912 (-24)) = "0.750000"
  ∧ fmt_d (-11) = "-11".
Proof. by vm_compute. Qed.

Lemma env_ok_succeeds : succeeds env_ok.
Proof. intros c _. reflexivity. Qed.

Lemma env_ok_fair : fair env_ok.
Proof. intros l. reflexivity. Qed.

Lemma join_nil_events_setup : omap stdout_text events_setup = [].
Proof. reflexivity. Qed.

Lemma stdout_success env :
  succeeds env → fair env →
  stdout env = corner_text env (λ i j, ref_dot (host_A env) (host_B env) MATRIX_SIZE i j).
Proof.
  intros Hok Hfair. unfold stdout, corner_text. rewrite events_of_success by done.
  unfold events_success. rewrite !omap_app, join_nil_events_setup, stdout_corner.
  assert (omap stdout_text (events_compute env) = []) as ->
    by (unfold events_compute; by destruct (eager env)).
  assert (omap stdout_text (events_cleanup env) = []) as -> by done.
  rewrite app_nil_l, app_nil_l, app_nil_r. apply (f_equal join).
  apply corner_text_ext. intros i j Hi Hj.
  apply product_ref_cell; unfold MATRIX_SIZE; lia.
Qed.

Lemma stderr_success env : succeeds env → fair env → stderr env = EmptyString.
Proof.
  intros Hok Hfair. unfold stderr. rewrite events_of_success by done.
  unfold events_success, corner_events. rewrite !omap_app, omap_bind.
  assert (omap stderr_text (events_compute env) = []) as ->
    by (unfold events_compute; by destruct (eager env)).
  assert (seqZ 0 10 ≫= (λ i, omap stderr_text (row_events env (product env) i)) = []) as ->.
  { induction (seqZ 0 10) as [|i l IH]; [done|]. rewrite bind_cons, IH, app_nil_r.
    unfold row_events. rewrite omap_app. simpl.
    induction (seqZ 0 10) as [|j l' IH']; [done|]. done. }
  done.
Qed.

Lemma exit_status_success env : succeeds env → fair env → exit_status env = Some 0.
Proof. intros Hok Hfair. unfold exit_status. by rewrite run_success. Qed.

(** C8. When every tested call succeeds, standard output is exactly ten
    rows, for [i = 0 .. 9]: the ten values [C[i * N + j]], [j = 0 .. 9],
    each rendered by [%f] and followed by a space, then a newline; [C] is
    the matrix read back from the device, whose cell [(i, j)] is the dot
    product of the reference. Nothing goes to standard error and the
    exit status is 0. *)
Theorem normal_completion_output (env : environment) :
  succeeds env → fair env →
  stdout env = corner_text env (λ i j, ref_dot (host_A env) (host_B env) MATRIX_SIZE i j)
  ∧ length (seqZ 0 10 ≫= row_text env (λ i j, ref_dot (host_A env) (host_B env) MATRIX_SIZE i j))
    = 110%nat
  ∧ (∀ i j, 0 <= i < 10 → 0 <= j < 10 →
       mC (host (run env).2) !! Z.to_nat (i * MATRIX_SIZE + j)
       = Some (ref_dot (host_A env) (host_B env) MATRIX_SIZE i j))
  ∧ stderr env = EmptyString
  ∧ exit_status env = Some 0.
Proof.
  intros Hok Hfair. split; [by apply stdout_success|].
  split; [reflexivity|]. split.
  - intros i j Hi Hj. rewrite run_success by done. cbn [snd world_done host mC].
    apply product_cell; unfold MATRIX_SIZE; lia.
  - split; [by apply stderr_success | by apply exit_status_success].
Qed.

Lemma normal_completion_output_witness :
  stdout env_ok
  = corner_text env_ok (λ i j, ref_dot (host_A env_ok) (host_B env_ok) MATRIX_SIZE i j)
  ∧ exit_status env_ok = Some 0.
Proof.
  pose proof (normal_completion_output env_ok env_ok_succeeds env_ok_fair) as H.
  destruct H as (H1 & _ & _ & _ & H2).
  split; [exact H1|exact H2].
Defined.

(** C1 at the matrices of the program. *)
Lemma launch_matches_reference_witness :
  ∃ C', launch (ndrange MATRIX_SIZE MATRIX_SIZE) (host_A env_ok) (host_B env_ok) MATRIX_SIZE
               (OutBuffer (fresh (λ _, Float32.zero)) []) = Some C'
        ∧ cells C' = reference_matmul (host_A env_ok) (host_B env_ok) MATRIX_SIZE
                       (fresh (λ _, Float32.zero))
        ∧ ∀ i j, 0 <= i < MATRIX_SIZE → 0 <= j < MATRIX_SIZE →
            store_count (i * MATRIX_SIZE + j) C' = 1%nat
            ∧ cells C' !! Z.to_nat (i * MATRIX_SIZE + j)
              = Some (ref_dot (host_A env_ok) (host_B env_ok) MATRIX_SIZE i j).
Proof.
  exact (launch_matches_reference (host_A env_ok) (host_B env_ok) (fresh (λ _, Float32.zero))
           (ndrange MATRIX_SIZE MATRIX_SIZE)
           (length_host_A env_ok) (length_host_B env_ok) (length_fresh (λ _, Float32.zero))
           (Permutation_refl (ndrange MATRIX_SIZE MATRIX_SIZE))).
Defined.

(** C10 at the work-item [(3, 5)] and [k = 7]. *)
Lemma kernel_indices_in_bounds_witness :
  idxA MATRIX_SIZE (Int32.of_size_t 5) 7 = 5 * 512 + 7
  ∧ idxB MATRIX_SIZE 7 (Int32.of_size_t 3) = 7 * 512 + 3
  ∧ idxC MATRIX_SIZE (Int32.of_size_t 5) (Int32.of_size_t 3) = 5 * 512 + 3.
Proof.
  pose proof (kernel_indices_in_bounds (3, 5) 7
                (ndrange_complete MATRIX_SIZE 3 5 ltac:(by vm_compute) ltac:(by vm_compute))
                ltac:(by vm_compute)) as H.
  cbv zeta in H. destruct H as ((Hr & Hc) & _ & (HA & _) & (HB & _) & (HC & _) & _).
  cbn [fst snd] in *. rewrite HA, HB, HC, Hr, Hc. done.
Defined.

(** ** The integer matrices and their exact product *)

(** [rand] returns a value in [[0, RAND_MAX]]; all that matters here is
    that it is non-negative and fits an [int]. *)
Definition rand_ok (env : environment) : Prop :=
  ∀ s, 0 <= (rand_next env s).1 <= Int32.max_signed.

Definition int_cell (l : list Z) (i : Z) : Z := default 0 (l !! Z.to_nat i).

(** The sum of the first [n] terms of the dot product, in [Z] and in
    binary32 (the value of [sum] after [n] turns of the kernel's loop). *)
Definition int_dot (Az Bz : list Z) (N i j n : Z) : Z :=
  foldl (λ s k, s + int_cell Az (i * N + k) * int_cell Bz (k * N + j)) 0 (seqZ 0 n).

Definition float_dot (A B : buffer) (N i j n : Z) : float :=
  foldl (λ sum k, Float32.add sum (Float32.mul (ref_cell A (i * N + k)) (ref_cell B (k * N + j))))
        Float32.zero (seqZ 0 n).

Definition small (z : Z) : Prop := 0 <= z <= 99.

Lemma int_cell_small l i : Forall small l → small (int_cell l i).
Proof.
  intros Hl. unfold int_cell. destruct (l !! Z.to_nat i) as [z|] eqn:E; simpl.
  - by apply (Forall_lookup_1 _ _ _ _ Hl E).
  - unfold small. lia.
Qed.

Lemma ref_cell_of_int l i : ref_cell (Float32.of_int <$> l) i = Float32.of_int (int_cell l i).
Proof.
  unfold ref_cell, int_cell. rewrite list_lookup_fmap.
  by destruct (l !! Z.to_nat i).
Qed.

Lemma product_exact Az Bz o1 o2 :
  Forall small Az → Forall small Bz →
  Float32.mul (ref_cell (Float32.of_int <$> Az) o1) (ref_cell (Float32.of_int <$> Bz) o2)
  = Float32.of_int (int_cell Az o1 * int_cell Bz o2)
  ∧ 0 <= int_cell Az o1 * int_cell Bz o2 <= 9801.
Proof.
  intros HA HB. rewrite !ref_cell_of_int.
  pose proof (int_cell_small Az o1 HA) as Ha. pose proof (int_cell_small Bz o2 HB) as Hb.
  unfold small in Ha, Hb. split; [|nia].
  apply mul_of_int; try lia. nia.
Qed.

(** Every partial sum is an integer below [2^24], computed exactly. *)
Lemma partial_sums_exact Az Bz N i j (n : nat) :
  Forall small Az → Forall small Bz → Z.of_nat n * 9801 < 2 ^ 24 →
  float_dot (Float32.of_int <$> Az) (Float32.of_int <$> Bz) N i j (Z.of_nat n)
  = Float32.of_int (int_dot Az Bz N i j (Z.of_nat n))
  ∧ 0 <= int_dot Az Bz N i j (Z.of_nat n) <= Z.of_nat n * 9801.
Proof.
  intros HA HB. unfold float_dot, int_dot. induction n as [|n IH]; intros Hn.
  - rewrite seqZ_nil by lia. simpl. split; [done|lia].
  - destruct IH as [IH1 IH2]; [lia|].
    rewrite seqZ_S, !foldl_snoc, IH1, Z.add_0_l.
    destruct (product_exact Az Bz (i * N + Z.of_nat n) (Z.of_nat n * N + j) HA HB)
      as [-> Hp].
    split; [|lia]. apply add_of_int; lia.
Qed.

Lemma rem_100_small r : 0 <= r → small (Z.rem r 100).
Proof. intros Hr. pose proof (Z.rem_bound_pos r 100 Hr ltac:(lia)). unfold small. lia. Qed.

Lemma matrix_A_small env n : rand_ok env → Forall small (matrix_A env n).
Proof.
  intros Hr. unfold matrix_A. apply Forall_fmap, Forall_forall. intros i _.
  apply rem_100_small, Hr.
Qed.

Lemma matrix_B_small env n : rand_ok env → Forall small (matrix_B env n).
Proof.
  intros Hr. unfold matrix_B. apply Forall_fmap, Forall_forall. intros i _.
  apply rem_100_small, Hr.
Qed.

Transparent host_A host_B.

Lemma host_A_eq env : host_A env = Float32.of_int <$> matrix_A env NN.
Proof. unfold host_A. exact eq_refl. Qed.

Lemma host_B_eq env : host_B env = Float32.of_int <$> matrix_B env NN.
Proof. unfold host_B. exact eq_refl. Qed.

Opaque host_A host_B.

Lemma ref_dot_float_dot A B N i j : ref_dot A B N i j = float_dot A B N i j N.
Proof. unfold ref_dot, float_dot. exact eq_refl. Qed.

(** C9. The elements of [A] and [B] are the integers [rand() % 100], in
    [{0, ..., 99}], converted to [float]. In the accumulation of any
    cell, every product is the exact product, at most 9801, and every
    partial sum is the exact integer sum, at most 512 * 9801 = 5018112,
    below [2^24]: the value the launch leaves in each cell is the exact
    integer dot product. *)
Theorem accumulation_is_exact (env : environment) (sched : list work_item) (C0 : buffer) :
  rand_ok env →
  sched ≡ₚ ndrange MATRIX_SIZE MATRIX_SIZE →
  Z.of_nat (length C0) = MATRIX_SIZE * MATRIX_SIZE →
  let Az := matrix_A env NN in
  let Bz := matrix_B env NN in
  (host_A env = Float32.of_int <$> Az ∧ host_B env = Float32.of_int <$> Bz
   ∧ Forall small Az ∧ Forall small Bz)
  ∧ (∀ i j k,
       Float32.mul (ref_cell (host_A env) (i * MATRIX_SIZE + k))
                   (ref_cell (host_B env) (k * MATRIX_SIZE + j))
       = Float32.of_int (int_cell Az (i * MATRIX_SIZE + k) * int_cell Bz (k * MATRIX_SIZE + j))
       ∧ 0 <= int_cell Az (i * MATRIX_SIZE + k) * int_cell Bz (k * MATRIX_SIZE + j) <= 9801)
  ∧ (∀ i j n, 0 <= n <= MATRIX_SIZE →
       float_dot (host_A env) (host_B env) MATRIX_SIZE i j n
       = Float32.of_int (int_dot Az Bz MATRIX_SIZE i j n)
       ∧ 0 <= int_dot Az Bz MATRIX_SIZE i j n <= 5018112 ∧ 5018112 < 2 ^ 24)
  ∧ ∃ C', launch sched (host_A env) (host_B env) MATRIX_SIZE (OutBuffer C0 []) = Some C'
          ∧ ∀ i j, 0 <= i < MATRIX_SIZE → 0 <= j < MATRIX_SIZE →
              cells C' !! Z.to_nat (i * MATRIX_SIZE + j)
              = Some (Float32.of_int (int_dot Az Bz MATRIX_SIZE i j MATRIX_SIZE)).
Proof.
  intros Hr Hperm HC. cbv zeta.
  pose proof (matrix_A_small env NN Hr) as HAz. pose proof (matrix_B_small env NN Hr) as HBz.
  assert (∀ i j n, 0 <= n <= MATRIX_SIZE →
            float_dot (host_A env) (host_B env) MATRIX_SIZE i j n
            = Float32.of_int (int_dot (matrix_A env NN) (matrix_B env NN) MATRIX_SIZE i j n)
            ∧ 0 <= int_dot (matrix_A env NN) (matrix_B env NN) MATRIX_SIZE i j n <= 5018112
            ∧ 5018112 < 2 ^ 24) as Hsum.
  { intros i j n Hn. rewrite host_A_eq, host_B_eq.
    rewrite <- (Z2Nat.id n) by lia.
    assert (Z.of_nat (Z.to_nat n) * 9801 <= 5018112) as Hb
      by (unfold MATRIX_SIZE in Hn; lia).
    destruct (partial_sums_exact (matrix_A env NN) (matrix_B env NN) MATRIX_SIZE i j
                (Z.to_nat n) HAz HBz) as [-> Hle]; [lia|].
    split; [exact eq_refl|lia]. }
  split.
  { split; [exact (host_A_eq env)|]. split; [exact (host_B_eq env)|].
    split; [exact HAz|exact HBz]. }
  split.
  { intros i j k. rewrite host_A_eq, host_B_eq. exact (product_exact _ _ _ _ HAz HBz). }
  split; [exact Hsum|].
  destruct (launch_ndrange MATRIX_SIZE MATRIX_SIZE_pos MATRIX_SIZE_fits
              (host_A env) (host_B env) (length_host_A env) (length_host_B env)
              sched C0 Hperm HC) as (C' & HL & _ & _ & Hall).
  exists C'. split; [exact HL|]. intros i j Hi Hj.
  destruct (Hall i j Hi Hj) as [_ ->]. rewrite ref_dot_float_dot.
  destruct (Hsum i j MATRIX_SIZE ltac:(unfold MATRIX_SIZE; lia)) as [-> _].
  exact eq_refl.
Qed.

Lemma env_ok_rand : rand_ok env_ok.
Proof.
  intros s. cbn [env_ok rand_next lcg_rand fst].
  pose proof (Z.mod_pos_bound (((s * 1103515245 + 12345) mod 2 ^ 32) / 65536) 32768
                ltac:(lia)) as H.
  unfold Int32.max_signed. lia.
Qed.

Lemma accumulation_is_exact_witness :
  ∃ C', launch (ndrange MATRIX_SIZE MATRIX_SIZE) (host_A env_ok) (host_B env_ok) MATRIX_SIZE
               (OutBuffer (fresh (λ _, Float32.zero)) []) = Some C'
        ∧ ∀ i j, 0 <= i < MATRIX_SIZE → 0 <= j < MATRIX_SIZE →
            cells C' !! Z.to_nat (i * MATRIX_SIZE + j)
            = Some (Float32.of_int (int_dot (matrix_A env_ok NN) (matrix_B env_ok NN)
                                      MATRIX_SIZE i j MATRIX_SIZE)).
Proof.
  pose proof (accumulation_is_exact env_ok (ndrange MATRIX_SIZE MATRIX_SIZE)
                (fresh (λ _, Float32.zero)) env_ok_rand
                (Permutation_refl (ndrange MATRIX_SIZE MATRIX_SIZE))
                (length_fresh (λ _, Float32.zero))) as H.
  cbv zeta in H. destruct H as (_ & _ & _ & H). exact H.
Defined.

(** ** The initialisation step *)

(** The part of [main] before the first API call. *)
Definition initialise (env : environment) : M unit :=
  malloc env MemA matrix_bytes ;;;
  malloc env MemB matrix_bytes ;;;
  malloc env MemC matrix_bytes ;;;
  init_matrices env.

Lemma main_split env w : main env w = (initialise env ;;; api_sequence env) w.
Proof.
  rewrite main_unfold. unfold initialise, matrix_bytes. by rewrite !bind_bind.
Qed.

Lemma initialise_spec env : initialise env initial_world = (Ret tt, world_filled env).
Proof.
  unfold initialise, matrix_bytes. unfold bind at 1 2 3.
  rewrite !malloc_spec. unfold initial_world. world_simpl.
  rewrite init_matrices_spec; [exact eq_refl|exact eq_refl|..];
    cbn [host mA mB]; apply Nat2Z.inj; by rewrite length_fresh, NN_Z.
Qed.

(** The comparisons of binary32, on the floats of the integers 0 .. 99. *)
Lemma small_floats_ordered :
  forallb (λ z, SFleb Float32.zero (Float32.of_int z)
                && SFltb (Float32.of_int z) (Float32.of_int 100)) (seqZ 0 100) = true.
Proof. by vm_compute. Qed.

Lemma small_float_in_range z :
  small z →
  SFleb Float32.zero (Float32.of_int z) = true
  ∧ SFltb (Float32.of_int z) (Float32.of_int 100) = true.
Proof.
  intros Hz. pose proof small_floats_ordered as H.
  apply Is_true_true, forallb_True in H.
  rewrite Forall_seqZ in H. specialize (H z ltac:(unfold small in Hz; lia)).
  apply Is_true_true in H. by apply andb_true_iff in H.
Qed.

Lemma matrix_A_lookup env n (i : nat) :
  (i < n)%nat → matrix_A env n !! i = Some (Z.rem (rand_value env (2 * i)) 100).
Proof.
  intros Hi. unfold matrix_A. rewrite list_lookup_fmap.
  by rewrite (proj2 (lookup_seq 0 n i i) (conj eq_refl Hi)).
Qed.

Lemma matrix_B_lookup env n (i : nat) :
  (i < n)%nat → matrix_B env n !! i = Some (Z.rem (rand_value env (2 * i + 1)) 100).
Proof.
  intros Hi. unfold matrix_B. rewrite list_lookup_fmap.
  by rewrite (proj2 (lookup_seq 0 n i i) (conj eq_refl Hi)).
Qed.

(** C6. The initialisation step ends with [A[i]] and [B[i]] holding the
    draws number [2 i] and [2 i + 1] of [rand()], reduced modulo 100 and
    converted to [float]: integers of [{0, ..., 99}], and floats [x] with
    [0 <= x < 100] in the order of binary32. *)
Theorem initialised_in_range (env : environment) (i : nat) :
  rand_ok env → (Z.of_nat i < MATRIX_SIZE * MATRIX_SIZE) →
  ∃ w a b,
    initialise env initial_world = (Ret tt, w)
    ∧ a = Z.rem (rand_value env (2 * i)) 100
    ∧ b = Z.rem (rand_value env (2 * i + 1)) 100
    ∧ mA (host w) !! i = Some (Float32.of_int a)
    ∧ mB (host w) !! i = Some (Float32.of_int b)
    ∧ (0 <= a < 100 ∧ 0 <= b < 100)
    ∧ (SFleb Float32.zero (Float32.of_int a) = true
       ∧ SFltb (Float32.of_int a) (Float32.of_int 100) = true)
    ∧ (SFleb Float32.zero (Float32.of_int b) = true
       ∧ SFltb (Float32.of_int b) (Float32.of_int 100) = true).
Proof.
  intros Hr Hi. rewrite <- NN_Z in Hi.
  exists (world_filled env), (Z.rem (rand_value env (2 * i)) 100),
    (Z.rem (rand_value env (2 * i + 1)) 100).
  pose proof (rem_100_small _ (proj1 (Hr (rand_state env (2 * i))))) as Ha.
  pose proof (rem_100_small _ (proj1 (Hr (rand_state env (2 * i + 1))))) as Hb.
  fold (rand_value env (2 * i)) in Ha. fold (rand_value env (2 * i + 1)) in Hb.
  split; [exact (initialise_spec env)|]. split; [exact eq_refl|]. split; [exact eq_refl|].
  unfold world_filled. cbn [host mA mB]. rewrite host_A_eq, host_B_eq, !list_lookup_fmap.
  rewrite matrix_A_lookup, matrix_B_lookup by lia.
  split; [exact eq_refl|]. split; [exact eq_refl|].
  split; [unfold small in *; lia|].
  split; by apply small_float_in_range.
Qed.

Lemma initialised_in_range_witness :
  ∃ w a b,
    initialise env_ok initial_world = (Ret tt, w)
    ∧ a = Z.rem (rand_value env_ok (2 * 0)) 100
    ∧ b = Z.rem (rand_value env_ok (2 * 0 + 1)) 100
    ∧ mA (host w) !! 0%nat = Some (Float32.of_int a)
    ∧ mB (host w) !! 0%nat = Some (Float32.of_int b)
    ∧ (0 <= a < 100 ∧ 0 <= b < 100)
    ∧ (SFleb Float32.zero (Float32.of_int a) = true
       ∧ SFltb (Float32.of_int a) (Float32.of_int 100) = true)
    ∧ (SFleb Float32.zero (Float32.of_int b) = true
       ∧ SFltb (Float32.of_int b) (Float32.of_int 100) = true).
Proof.
  exact (initialised_in_range env_ok 0 env_ok_rand ltac:(by vm_compute)).
Defined.

Example first_draws :
  Z.rem (rand_value env_ok 0) 100 = 38 ∧ Z.rem (rand_value env_ok 1) 100 = 58.
Proof. by vm_compute. Qed.

(** ** Runs that fail *)

(** The tested calls of [main] in program order, each with the label it
    passes to [checkError] ([None] for the build, which has a test of its
    own). *)
Definition tested_program : list (api_call * option string) :=
  [(clGetPlatformIDs, Some "Getting platform");
   (clGetDeviceIDs, Some "Getting device");
   (clCreateContext, Some "Creating context");
   (clCreateCommandQueue, Some "Creating command queue");
   (clCreateBuffer MemA matrix_bytes, Some "Creating buffer A");
   (clCreateBuffer MemB matrix_bytes, Some "Creating buffer B");
   (clCreateBuffer MemC matrix_bytes, Some "Creating buffer C");
   (clEnqueueWriteBuffer MemA true, Some "Copying A to device");
   (clEnqueueWriteBuffer MemB true, Some "Copying B to device");
   (clCreateProgramWithSource, Some "Creating program");
   (clBuildProgram, None);
   (clCreateKernel, Some "Creating kernel");
   (clSetKernelArg 0 (ArgMem MemA), Some "Setting kernel arg 0");
   (clSetKernelArg 1 (ArgMem MemB), Some "Setting kernel arg 1");
   (clSetKernelArg 2 (ArgMem MemC), Some "Setting kernel arg 2");
   (clSetKernelArg 3 (ArgInt MATRIX_SIZE), Some "Setting kernel arg 3");
   (clEnqueueNDRangeKernel MATRIX_SIZE MATRIX_SIZE 16 16, Some "Enqueueing kernel");
   (clEnqueueReadBuffer MemC true, Some "Reading result")].

(** What the process does when its first failing call is [c]. *)
Definition failure_text (env : environment) (c : api_call) (label : option string) : string :=
  match label with
  | Some name => error_line name (cl_status env c)
  | None => "CL Compilation failed:" +:+ nl +:+ build_log env +:+ nl
  end.

Definition failure_calls (c : api_call) (label : option string) : list api_call :=
  match label with
  | Some _ => [c]
  | None => [c; clGetProgramBuildInfo]
  end.

Ltac split_status :=
  repeat match goal with
         | H : Forall _ (_ :: _) |- _ => apply Forall_cons in H as [? H]
         | H : Forall _ [] |- _ => clear H
         end;
  cbn [fst] in *.

Ltac buffer_length :=
  lazymatch goal with
  | |- Z.of_nat (length (host_A ?env)) = _ => exact (length_host_A env)
  | |- Z.of_nat (length (host_B ?env)) = _ => exact (length_host_B env)
  | |- Z.of_nat (length (fresh ?u)) = _ => exact (length_fresh u)
  | |- Z.of_nat (length (product ?env)) = _ => exact (length_product env)
  end.

Ltac run_effect' :=
  cbn [api_effect];
  repeat progress
    (rewrite ?bind_ret_l, ?bind_modify, ?bind_gets, ?bind_bind, ?fresh_eq,
       ?bind_exec_nil, ?bind_exec_cons, ?bind_exec_write, ?bind_exec_read, ?kargs_bound;
     try rewrite bind_enqueue_sync;
     try rewrite bind_enqueue_eager by assumption;
     try rewrite bind_enqueue_lazy by assumption;
     unfold CL_TRUE;
     cbn [app insert list_insert Z.to_nat Pos.to_nat Pos.iter_op Nat.add];
     world_simpl).

Ltac run_step :=
  first
    [ match goal with
      | |- context [bind (call ?env ?c) _ _] =>
          first [ rewrite (step_ok env c) by assumption; run_effect'
                | rewrite (step_fail env c) by assumption
                | rewrite (build_ok env) by assumption
                | rewrite (build_fail env) by assumption ]
      end
    | rewrite bind_exec_kernel by (try assumption; cbn [dev mA mB mC]; buffer_length);
      run_effect' ].

(** The first tested call that fails ends the run: the status of the
    process, what it printed and the calls it made. *)
Lemma first_failure_world env pre c label post :
  fair env →
  tested_program = pre ++ (c, label) :: post →
  Forall (λ p, cl_status env p.1 = CL_SUCCESS) pre →
  cl_status env c ≠ CL_SUCCESS →
  ∃ w, run env = (Exit 1, w)
       ∧ omap stderr_text (reverse (trace w)) = [failure_text env c label]
       ∧ omap stdout_text (reverse (trace w)) = []
       ∧ omap call_of (reverse (trace w)) = pre.*1 ++ failure_calls c label.
Proof.
  intros Hfair Hprog Hpre Hc.
  rewrite run_filled. unfold api_sequence, world_filled, tested_program in *.
  fold matrix_bytes.
  repeat (destruct pre as [|[c0 l0] pre];
          [|cbn [app] in Hprog; injection Hprog as <- <- Hprog]).
  all: cbn [app] in Hprog; try (destruct pre; discriminate Hprog).
  all: injection Hprog as <- <- <-.
  all: split_status.
  all: destruct (eager env) eqn:Heager.
  all: eexists; split; [repeat run_step; world_simpl; exact eq_refl|].
  all: unfold CL_TRUE; cbn [trace]; repeat split; exact eq_refl.
Qed.

Lemma join_singleton s : join [s] = s.
Proof.
  unfold join. cbn [foldr]. induction s as [|a s IH]; [done|].
  change (String a (s +:+ EmptyString) = String a s). by f_equal.
Qed.

Lemma first_failure env pre c label post :
  fair env →
  tested_program = pre ++ (c, label) :: post →
  Forall (λ p, cl_status env p.1 = CL_SUCCESS) pre →
  cl_status env c ≠ CL_SUCCESS →
  stderr env = failure_text env c label
  ∧ stdout env = EmptyString
  ∧ exit_status env = Some 1
  ∧ calls env = pre.*1 ++ failure_calls c label.
Proof.
  intros Hfair Hprog Hpre Hc.
  destruct (first_failure_world env pre c label post Hfair Hprog Hpre Hc)
    as (w & Hrun & Herr & Hout & Hcalls).
  unfold stderr, stdout, exit_status, calls, events. rewrite Hrun. cbn [fst snd].
  rewrite Herr, Hout, Hcalls, join_singleton. repeat split; reflexivity.
Qed.

(** *** Failure of the build *)


Definition release_calls : list api_call :=
  [clReleaseMemObject MemA; clReleaseMemObject MemB; clReleaseMemObject MemC;
   clReleaseKernel; clReleaseProgram; clReleaseCommandQueue; clReleaseContext].


Definition build_failure_text (env : environment) : string :=
  "CL Compilation failed:" +:+ nl +:+ build_log env +:+ nl.








(** * Further properties of the kernel *)

Lemma wrap_range z : Int32.in_range (Int32.wrap z).
Proof.
  unfold Int32.in_range, Int32.min_signed, Int32.max_signed, Int32.wrap.
  pose proof (Z.mod_pos_bound (z + 2 ^ 31) (2 ^ 32) ltac:(lia)). lia.
Qed.

Section AnySize.

Variable N : Z.
Hypothesis N_pos : 0 < N.
Hypothesis N_fits : N * N <= Int32.max_signed.
Variables A B : buffer.
Hypothesis A_len : Z.of_nat (length A) = N * N.
Hypothesis B_len : Z.of_nat (length B) = N * N.

(** The product, cell by cell in row-major order. *)
Definition product_cells : buffer :=
  (λ o, ref_dot A B N (o `div` N) (o `mod` N)) <$> seqZ 0 (N * N).

Lemma offset_split (n : nat) :
  Z.of_nat n < N * N →
  0 <= Z.of_nat n `mod` N < N ∧ 0 <= Z.of_nat n `div` N < N
  ∧ Z.of_nat n `div` N * N + Z.of_nat n `mod` N = Z.of_nat n.
Proof.
  intros Hn. pose proof (Z.mod_pos_bound (Z.of_nat n) N N_pos).
  pose proof (Z.div_mod (Z.of_nat n) N ltac:(lia)).
  assert (0 <= Z.of_nat n `div` N) by (apply Z.div_pos; lia).
  assert (Z.of_nat n `div` N < N) by (apply Z.div_lt_upper_bound; lia).
  lia.
Qed.

Lemma launch_cells sched C0 :
  sched ≡ₚ ndrange N N →
  Z.of_nat (length C0) = N * N →
  launch sched A B N (OutBuffer C0 [])
  = Some (OutBuffer product_cells (reverse (offset_of N <$> sched))).
Proof.
  intros Hperm HC.
  destruct (launch_ndrange N N_pos N_fits A B A_len B_len sched C0 Hperm HC)
    as (C' & HL & Hcells & _ & Hall).
  rewrite (launch_result N N_pos N_fits A B A_len B_len sched C0 Hperm HC) in HL.
  injection HL as <-. cbn [cells] in *.
  rewrite (launch_result N N_pos N_fits A B A_len B_len sched C0 Hperm HC).
  do 2 f_equal. apply list_eq. intros n. unfold product_cells.
  rewrite list_lookup_fmap.
  destruct (decide (Z.of_nat n < N * N)) as [Hn|Hn].
  - destruct (offset_split n Hn) as (Hm & Hd & Heq).
    rewrite lookup_seqZ_lt by lia. cbn [fmap option_fmap option_map]. rewrite Z.add_0_l.
    rewrite <- (Nat2Z.id n) at 1. rewrite <- Heq at 1. by apply Hall.
  - rewrite lookup_seqZ_ge by lia.
    apply lookup_ge_None_2. rewrite length_reference. lia.
Qed.

End AnySize.


(** The triple loop of the reference overwrites every cell: its result is
    the row-major list of the dot products, whatever [C] held. *)
Lemma reference_cells (N : Z) (A B C0 : buffer) :
  0 < N → N * N <= Int32.max_signed →
  Z.of_nat (length A) = N * N →
  Z.of_nat (length B) = N * N →
  Z.of_nat (length C0) = N * N →
  reference_matmul A B N C0 = product_cells N A B.
Proof.
  intros HN Hfit HA HB HC.
  pose proof (launch_result N HN Hfit A B HA HB (ndrange N N) C0
                (Permutation_refl (ndrange N N)) HC) as H1.
  pose proof (launch_cells N HN Hfit A B HA HB (ndrange N N) C0
                (Permutation_refl (ndrange N N)) HC) as H2.
  rewrite H1 in H2. injection H2 as H2. exact H2.
Qed.

(** A 2x2 instance, used to exercise the statements below:
    [[1 2; 3 4] * [5 6; 7 8] = [19 22; 43 50]]. *)
Definition A2 : buffer := Float32.of_int <$> [1; 2; 3; 4].
Definition B2 : buffer := Float32.of_int <$> [5; 6; 7; 8].
Definition Z2 : buffer := replicate 4 Float32.zero.

Example launch_2x2 :
  launch [(0, 0); (1, 0); (0, 1); (1, 1)] A2 B2 2 (OutBuffer Z2 [])
  = Some (OutBuffer (Float32.of_int <$> [19; 22; 43; 50]) [3; 2; 1; 0]).
Proof. by vm_compute. Qed.

Lemma ndrange_2_2 : ndrange 2 2 = [(0, 0); (1, 0); (0, 1); (1, 1)].
Proof. by vm_compute. Qed.

(** X1. For every size [N] whose square fits an [int], and buffers of
    [N * N] cells, a launch over the [N x N] index space, in any order,
    returns; it stores to each offset of [C] exactly once, and leaves in
    cell [(i, j)] the dot product that the triple loop of the reference
    computes: the output buffer is the reference's. *)
Theorem launch_any_size (N : Z) (A B C0 : buffer) (sched : list work_item) :
  0 < N → N * N <= Int32.max_signed →
  Z.of_nat (length A) = N * N →
  Z.of_nat (length B) = N * N →
  Z.of_nat (length C0) = N * N →
  sched ≡ₚ ndrange N N →
  ∃ C', launch sched A B N (OutBuffer C0 []) = Some C'
        ∧ cells C' = reference_matmul A B N C0
        ∧ written C' ≡ₚ seqZ 0 (N * N)
        ∧ ∀ i j, 0 <= i < N → 0 <= j < N →
            store_count (i * N + j) C' = 1%nat
            ∧ cells C' !! Z.to_nat (i * N + j) = Some (ref_dot A B N i j).
Proof.
  intros HN Hfit HA HB HC Hperm.
  exact (launch_ndrange N HN Hfit A B HA HB sched C0 Hperm HC).
Qed.

Lemma launch_any_size_witness :
  ∃ C', launch (ndrange 2 2) A2 B2 2 (OutBuffer Z2 []) = Some C'
        ∧ cells C' = reference_matmul A2 B2 2 Z2
        ∧ written C' ≡ₚ seqZ 0 (2 * 2)
        ∧ ∀ i j, 0 <= i < 2 → 0 <= j < 2 →
            store_count (i * 2 + j) C' = 1%nat
            ∧ cells C' !! Z.to_nat (i * 2 + j) = Some (ref_dot A2 B2 2 i j).
Proof.
  exact (launch_any_size 2 A2 B2 Z2 (ndrange 2 2) ltac:(lia) ltac:(by vm_compute)
           eq_refl eq_refl eq_refl (Permutation_refl (ndrange 2 2))).
Defined.

(** X2. The cells after a launch are the dot products in row-major order,
    whatever the order of the work-items and whatever [C] held before:
    two launches on the same [A] and [B] leave the same cells. In
    particular a second launch on the output of the first changes
    nothing. *)
Theorem launch_independent (N : Z) (A B C0 C0' : buffer) (sched sched' : list work_item) :
  0 < N → N * N <= Int32.max_signed →
  Z.of_nat (length A) = N * N →
  Z.of_nat (length B) = N * N →
  Z.of_nat (length C0) = N * N →
  Z.of_nat (length C0') = N * N →
  sched ≡ₚ ndrange N N →
  sched' ≡ₚ ndrange N N →
  ∃ C1 C2, launch sched A B N (OutBuffer C0 []) = Some C1
           ∧ launch sched' A B N (OutBuffer C0' []) = Some C2
           ∧ cells C1 = cells C2
           ∧ cells C1 = (λ o, ref_dot A B N (o `div` N) (o `mod` N)) <$> seqZ 0 (N * N)
           ∧ ∃ C3, launch sched' A B N (OutBuffer (cells C1) []) = Some C3
                   ∧ cells C3 = cells C1.
Proof.
  intros HN Hfit HA HB HC HC' Hperm Hperm'.
  pose proof (launch_cells N HN Hfit A B HA HB sched C0 Hperm HC) as H1.
  pose proof (launch_cells N HN Hfit A B HA HB sched' C0' Hperm' HC') as H2.
  eexists _, _. split; [exact H1|]. split; [exact H2|]. cbn [cells].
  split; [done|]. split; [done|].
  assert (Z.of_nat (length (product_cells N A B)) = N * N) as HC3.
  { unfold product_cells. rewrite length_fmap, length_seqZ. nia. }
  pose proof (launch_cells N HN Hfit A B HA HB sched' (product_cells N A B) Hperm' HC3) as H3.
  eexists. split; [exact H3|done].
Qed.

Lemma launch_independent_witness :
  ∃ C1 C2, launch (ndrange 2 2) A2 B2 2 (OutBuffer Z2 []) = Some C1
           ∧ launch (reverse (ndrange 2 2)) A2 B2 2 (OutBuffer A2 []) = Some C2
           ∧ cells C1 = cells C2
           ∧ cells C1 = (λ o, ref_dot A2 B2 2 (o `div` 2) (o `mod` 2)) <$> seqZ 0 (2 * 2)
           ∧ ∃ C3, launch (reverse (ndrange 2 2)) A2 B2 2 (OutBuffer (cells C1) []) = Some C3
                   ∧ cells C3 = cells C1.
Proof.
  exact (launch_independent 2 A2 B2 Z2 A2 (ndrange 2 2) (reverse (ndrange 2 2))
           ltac:(lia) ltac:(by vm_compute) eq_refl eq_refl eq_refl eq_refl
           (Permutation_refl (ndrange 2 2)) (reverse_Permutation (ndrange 2 2))).
Defined.

(** X3. One work-item of the index space returns, stores the dot product
    of its row and column at its own offset [gid1 * N + gid0], and leaves
    every other cell and the extent of [C] as they were. *)
Theorem work_item_frame (N : Z) (A B : buffer) (C : out_buffer) (g0 g1 : Z) :
  0 < N → N * N <= Int32.max_signed →
  Z.of_nat (length A) = N * N →
  Z.of_nat (length B) = N * N →
  Z.of_nat (length (cells C)) = N * N →
  0 <= g0 < N → 0 <= g1 < N →
  ∃ C', matmul A B C N g0 g1 = Some C'
        ∧ written C' = (g1 * N + g0) :: written C
        ∧ length (cells C') = length (cells C)
        ∧ cells C' !! Z.to_nat (g1 * N + g0) = Some (ref_dot A B N g1 g0)
        ∧ ∀ n, n ≠ Z.to_nat (g1 * N + g0) → cells C' !! n = cells C !! n.
Proof.
  intros HN Hfit HA HB HC H0 H1.
  pose proof (offset_bounds N HN g1 g0 H1 H0) as Hoff.
  eexists. split; [exact (matmul_spec N HN Hfit A B HA HB C g0 g1 H0 H1 HC)|].
  cbn [cells written]. split; [done|]. split; [apply length_insert|].
  split.
  - apply list_lookup_insert_eq. lia.
  - intros n Hn. by apply list_lookup_insert_ne.
Qed.

Lemma work_item_frame_witness :
  ∃ C', matmul A2 B2 (OutBuffer Z2 []) 2 1 0 = Some C'
        ∧ written C' = (0 * 2 + 1) :: []
        ∧ length (cells C') = length Z2
        ∧ cells C' !! Z.to_nat (0 * 2 + 1) = Some (ref_dot A2 B2 2 0 1)
        ∧ ∀ n, n ≠ Z.to_nat (0 * 2 + 1) → cells C' !! n = Z2 !! n.
Proof.
  exact (work_item_frame 2 A2 B2 (OutBuffer Z2 []) 1 0 ltac:(lia) ltac:(by vm_compute)
           eq_refl eq_refl eq_refl ltac:(lia) ltac:(lia)).
Defined.



(** X5. The kernel computes its offsets in [int]: for the offsets of the
    index space, [row * N + col] is computed without wrap-around exactly
    when [N] is at most 46340 (the largest [N] with [N * N <= INT_MAX]). *)
Theorem index_threshold (N : Z) :
  0 < N →
  N <= 46340 ↔ ∀ row col, 0 <= row < N → 0 <= col < N → idxC N row col = row * N + col.
Proof.
  intros HN. split.
  - intros Hle row col Hr Hc. apply (idxC_exact N HN); [|done|done].
    unfold Int32.max_signed. nia.
  - intros Hexact. destruct (Z.le_gt_cases N 46340) as [|Hgt]; [done|exfalso].
    specialize (Hexact (N - 1) (N - 1) ltac:(lia) ltac:(lia)).
    pose proof (wrap_range ((Int32.mul (N - 1) N) + (N - 1))) as Hr.
    unfold idxC, Int32.add in Hexact. rewrite Hexact in Hr.
    unfold Int32.in_range, Int32.max_signed in Hr. nia.
Qed.

Lemma index_threshold_witness :
  512 <= 46340 ↔ ∀ row col, 0 <= row < 512 → 0 <= col < 512 → idxC 512 row col = row * 512 + col.
Proof. exact (index_threshold 512 ltac:(lia)). Defined.

(** X6. On matrices of integers between 0 and 99 (what [rand() % 100]
    gives), of any size up to 1711, binary32 loses nothing: the launch
    leaves in every cell the exact integer dot product, which is at most
    [N * 9801]. *)
Theorem launch_exact_on_small_integers (N : Z) (Az Bz : list Z) (C0 : buffer)
    (sched : list work_item) :
  0 < N <= 1711 →
  Z.of_nat (length Az) = N * N →
  Z.of_nat (length Bz) = N * N →
  Z.of_nat (length C0) = N * N →
  Forall small Az → Forall small Bz →
  sched ≡ₚ ndrange N N →
  ∃ C', launch sched (Float32.of_int <$> Az) (Float32.of_int <$> Bz) N (OutBuffer C0 [])
        = Some C'
        ∧ ∀ i j, 0 <= i < N → 0 <= j < N →
            cells C' !! Z.to_nat (i * N + j) = Some (Float32.of_int (int_dot Az Bz N i j N))
            ∧ 0 <= int_dot Az Bz N i j N <= N * 9801.
Proof.
  intros HN HA HB HC HsA HsB Hperm.
  assert (N * N <= Int32.max_signed) as Hfit by (unfold Int32.max_signed; nia).
  destruct (launch_ndrange N ltac:(lia) Hfit (Float32.of_int <$> Az) (Float32.of_int <$> Bz)
              ltac:(by rewrite length_fmap) ltac:(by rewrite length_fmap) sched C0 Hperm HC)
    as (C' & Hrun & _ & _ & Hcells).
  exists C'. split; [exact Hrun|]. intros i j Hi Hj.
  destruct (Hcells i j Hi Hj) as [_ ->].
  destruct (partial_sums_exact Az Bz N i j (Z.to_nat N) HsA HsB ltac:(lia)) as [Hf Hb].
  rewrite Z2Nat.id in Hf, Hb by lia.
  by rewrite ref_dot_float_dot, Hf.
Qed.

Lemma launch_exact_on_small_integers_witness :
  ∃ C', launch (ndrange 2 2) (Float32.of_int <$> [1; 2; 3; 4]) (Float32.of_int <$> [5; 6; 7; 8])
               2 (OutBuffer Z2 []) = Some C'
        ∧ ∀ i j, 0 <= i < 2 → 0 <= j < 2 →
            cells C' !! Z.to_nat (i * 2 + j)
            = Some (Float32.of_int (int_dot [1; 2; 3; 4] [5; 6; 7; 8] 2 i j 2))
            ∧ 0 <= int_dot [1; 2; 3; 4] [5; 6; 7; 8] 2 i j 2 <= 2 * 9801.
Proof.
  refine (launch_exact_on_small_integers 2 [1; 2; 3; 4] [5; 6; 7; 8] Z2 (ndrange 2 2)
            ltac:(lia) eq_refl eq_refl eq_refl _ _ (Permutation_refl (ndrange 2 2)));
    repeat constructor; unfold small; lia.
Defined.

(** * Further properties of the driver *)

(** The tested calls of the program succeed. *)
Definition program_ok (env : environment) : Prop :=
  Forall (λ p, cl_status env p.1 = CL_SUCCESS) tested_program.

(** The events a tested call adds to the trace when it succeeds: the call,
    and the commands that complete before it returns. *)
Definition completes (env : environment) (c : api_call) : list event :=
  match c with
  | clEnqueueWriteBuffer b _ => [EvComplete (CmdWrite b)]
  | clEnqueueNDRangeKernel _ _ _ _ => if eager env then [EvComplete kernel_cmd] else []
  | clEnqueueReadBuffer b _ =>
      if eager env then [EvComplete (CmdRead b)]
      else [EvComplete kernel_cmd; EvComplete (CmdRead b)]
  | _ => []
  end.

Definition step_events (env : environment) (c : api_call) : list event :=
  EvCall c CL_SUCCESS :: completes env c.

(** The events of the call that fails, and of the branch it takes. *)
Definition failure_events (env : environment) (c : api_call) (label : option string)
  : list event :=
  EvCall c (cl_status env c)
  :: match label with
     | Some name => [EvStderr (error_line name (cl_status env c))]
     | None => [EvCall clGetProgramBuildInfo (cl_status env clGetProgramBuildInfo);
                EvStderr (build_failure_text env)]
     end.

Definition mallocs : list event := [EvMalloc MemA; EvMalloc MemB; EvMalloc MemC].

Lemma success_run_program env :
  program_ok env → fair env → api_sequence env (world_filled env) = (Ret 0, world_done env).
Proof.
  intros Hok Hfair. unfold program_ok, tested_program in Hok. split_status.
  unfold api_sequence, world_filled. fold matrix_bytes.
  unfold world_done, events_success, events_compute.
  destruct (eager env) eqn:Heager; repeat run_step; rewrite ?product_eq, ?kernel_cmd_eq;
    pose proof (length_product env) as HP; finish_run.
Qed.

(** The trace of a run whose first failing tested call is [c]. *)
Lemma failure_run_events env pre c label post :
  fair env →
  tested_program = pre ++ (c, label) :: post →
  Forall (λ p, cl_status env p.1 = CL_SUCCESS) pre →
  cl_status env c ≠ CL_SUCCESS →
  ∃ w, run env = (Exit 1, w)
       ∧ reverse (trace w)
         = mallocs ++ (pre.*1 ≫= step_events env) ++ failure_events env c label.
Proof.
  intros Hfair Hprog Hpre Hc.
  rewrite run_filled. unfold api_sequence, world_filled, tested_program in *.
  fold matrix_bytes.
  repeat (destruct pre as [|[c0 l0] pre];
          [|cbn [app] in Hprog; injection Hprog as <- <- Hprog]).
  all: cbn [app] in Hprog; try (destruct pre; discriminate Hprog).
  all: injection Hprog as <- <- <-.
  all: split_status.
  all: unfold mallocs, failure_events, build_failure_text;
    cbn [fmap list_fmap fst mbind list_bind app step_events completes].
  all: destruct (eager env) eqn:Heager.
  all: eexists; split; [repeat run_step; world_simpl; exact eq_refl|].
  all: unfold CL_TRUE; cbn [trace]; exact eq_refl.
Qed.

(** The events of a run, read off the final worlds. *)
Lemma events_of_failure env pre c label post :
  fair env →
  tested_program = pre ++ (c, label) :: post →
  Forall (λ p, cl_status env p.1 = CL_SUCCESS) pre →
  cl_status env c ≠ CL_SUCCESS →
  exit_status env = Some 1
  ∧ events env = mallocs ++ (pre.*1 ≫= step_events env) ++ failure_events env c label.
Proof.
  intros Hfair Hprog Hpre Hc.
  destruct (failure_run_events env pre c label post Hfair Hprog Hpre Hc) as (w & Hrun & Hev).
  unfold exit_status, events. rewrite Hrun. cbn [fst snd]. split; [exact eq_refl|exact Hev].
Qed.

Lemma setup_events env :
  events_setup ++ events_compute env = mallocs ++ (tested_program.*1 ≫= step_events env).
Proof.
  unfold events_setup, events_compute, mallocs, tested_program.
  cbn [fmap list_fmap fst mbind list_bind app step_events completes].
  by destruct (eager env).
Qed.

Lemma run_program env : program_ok env → fair env → run env = (Ret 0, world_done env).
Proof. intros Hok Hfair. rewrite run_filled. exact (success_run_program env Hok Hfair). Qed.

Lemma events_of_program env :
  program_ok env → fair env →
  exit_status env = Some 0
  ∧ events env = mallocs ++ (tested_program.*1 ≫= step_events env)
                 ++ corner_events env (product env) ++ events_cleanup env.
Proof.
  intros Hok Hfair. unfold exit_status, events. rewrite (run_program env Hok Hfair).
  cbn [fst snd]. split; [exact eq_refl|].
  unfold world_done. cbn [trace]. rewrite reverse_involutive.
  unfold events_success. by rewrite !app_assoc, setup_events.
Qed.

(** *** Classes of events *)

Definition is_release (c : api_call) : bool :=
  match c with
  | clReleaseMemObject _ | clReleaseKernel | clReleaseProgram
  | clReleaseCommandQueue | clReleaseContext => true
  | _ => false
  end.

(** The events of the cleanup: a release call or a [free]. *)
Definition is_cleanup (e : event) : bool :=
  match e with
  | EvFree _ => true
  | EvCall c _ => is_release c
  | _ => false
  end.

Definition is_stdout (e : event) : bool :=
  match e with EvStdout _ => true | _ => false end.

Lemma program_not_release : Forall (λ c, is_release c = false) tested_program.*1.
Proof. unfold tested_program. cbn [fmap list_fmap fst]. repeat constructor. Qed.

Lemma completes_complete env c :
  Forall (λ e, ∃ cmd, e = EvComplete cmd) (completes env c).
Proof. unfold completes. destruct c, (eager env); repeat constructor; by eexists. Qed.

Lemma steps_not_cleanup env (l : list api_call) :
  Forall (λ c, is_release c = false) l →
  Forall (λ e, is_cleanup e = false) (l ≫= step_events env).
Proof.
  induction 1 as [|c l Hc _ IH]; [constructor|].
  rewrite bind_cons. apply Forall_app. split; [|exact IH].
  unfold step_events. constructor; [exact Hc|].
  eapply Forall_impl; [apply completes_complete|]. by intros e [cmd ->].
Qed.

Lemma steps_calls env (l : list api_call) : omap call_of (l ≫= step_events env) = l.
Proof.
  induction l as [|c l IH]; [done|].
  rewrite bind_cons, omap_app, IH. unfold step_events. cbn [omap list_omap call_of].
  assert (omap call_of (completes env c) = []) as ->; [|done].
  unfold completes. by destruct c, (eager env).
Qed.

Lemma steps_silent env (l : list api_call) :
  omap stderr_text (l ≫= step_events env) = []
  ∧ omap stdout_text (l ≫= step_events env) = [].
Proof.
  induction l as [|c l [IH1 IH2]]; [done|].
  rewrite bind_cons, !omap_app, IH1, IH2. unfold step_events, completes.
  by destruct c, (eager env).
Qed.

Lemma corner_stdout env C : Forall (λ e, is_stdout e = true) (corner_events env C).
Proof.
  unfold corner_events. apply Forall_bind, Forall_forall. intros i _.
  unfold row_events. apply Forall_app. split; [|by repeat constructor].
  apply Forall_fmap, Forall_forall. by intros j _.
Qed.

Lemma stdout_not_call (l : list event) :
  Forall (λ e, is_stdout e = true) l →
  omap call_of l = [] ∧ omap stderr_text l = [] ∧ Forall (λ e, is_cleanup e = false) l.
Proof.
  induction 1 as [|e l He _ (IH1 & IH2 & IH3)]; [done|].
  destruct e; try discriminate He. cbn. rewrite IH1, IH2. by repeat constructor.
Qed.

Lemma prefix_not_release pre (x : api_call * option string) post :
  tested_program = pre ++ x :: post →
  Forall (λ c, is_release c = false) pre.*1 ∧ is_release x.1 = false.
Proof.
  intros Hprog. pose proof program_not_release as H.
  rewrite Hprog, fmap_app, fmap_cons in H.
  apply Forall_app in H as [H1 H2]. apply Forall_cons in H2 as [H2 _]. done.
Qed.

Lemma call_in_trace (l : list event) c :
  c ∈ omap call_of l → ∃ st, EvCall c st ∈ l.
Proof.
  intros Hc. apply list_elem_of_omap in Hc as (e & He & Hcall).
  destruct e; try discriminate Hcall. injection Hcall as ->. by eexists.
Qed.

(** *** Environments for the failure paths *)

(** The launch is refused with [CL_INVALID_WORK_GROUP_SIZE]; the device
    runs a kernel as soon as it is enqueued, work-items in reverse order. *)
Definition env_launch_fails : environment :=
  Environment (λ c, match c with clEnqueueNDRangeKernel _ _ _ _ => -54 | _ => CL_SUCCESS end)
              EmptyString reverse true (λ _ _, Float32.zero) (λ _ _, Float32.zero)
              lcg_rand printf_f.

(** Every tested call succeeds; every release returns an error. *)
Definition env_release_fails : environment :=
  Environment (λ c, if is_release c then -38 else CL_SUCCESS)
              EmptyString reverse false (λ _ _, Float32.zero) (λ _ _, Float32.zero)
              lcg_rand printf_f.

Lemma env_launch_fails_fair : fair env_launch_fails.
Proof. intros l. apply reverse_Permutation. Qed.

Lemma env_launch_fails_before :
  Forall (λ p, cl_status env_launch_fails p.1 = CL_SUCCESS) (take 16 tested_program).
Proof. unfold tested_program. cbn [take]. repeat constructor. Qed.

Lemma env_launch_fails_split :
  tested_program
  = take 16 tested_program
    ++ (clEnqueueNDRangeKernel MATRIX_SIZE MATRIX_SIZE 16 16, Some "Enqueueing kernel")
    :: drop 17 tested_program.
Proof. reflexivity. Qed.

Lemma env_release_fails_fair : fair env_release_fails.
Proof. intros l. apply reverse_Permutation. Qed.

Lemma env_release_fails_ok : program_ok env_release_fails.
Proof. unfold program_ok, tested_program. repeat constructor. Qed.

Lemma env_ok_program : program_ok env_ok.
Proof. unfold program_ok, tested_program. repeat constructor. Qed.

(** X7. [checkError]: when a call whose status is passed to [checkError]
    is the first to fail, the process writes the one line
    [Error during operation '<label>': <status>] to standard error,
    prints nothing, and exits with status 1; the calls it made are the
    ones before the failing call and that call, and nothing after it. *)
Theorem checked_call_failure (env : environment) (pre : list (api_call * option string))
    (c : api_call) (name : string) (post : list (api_call * option string)) :
  fair env →
  tested_program = pre ++ (c, Some name) :: post →
  Forall (λ p, cl_status env p.1 = CL_SUCCESS) pre →
  cl_status env c ≠ CL_SUCCESS →
  stderr env = "Error during operation '" +:+ name +:+ "': " +:+ fmt_d (cl_status env c) +:+ nl
  ∧ stdout env = EmptyString
  ∧ exit_status env = Some 1
  ∧ calls env = pre.*1 ++ [c].
Proof. intros Hfair Hprog Hpre Hc. exact (first_failure env pre c (Some name) post Hfair Hprog Hpre Hc). Qed.

Lemma checked_call_failure_witness :
  stderr env_launch_fails
  = "Error during operation '" +:+ "Enqueueing kernel" +:+ "': "
    +:+ fmt_d (cl_status env_launch_fails (clEnqueueNDRangeKernel MATRIX_SIZE MATRIX_SIZE 16 16))
    +:+ nl
  ∧ stdout env_launch_fails = EmptyString
  ∧ exit_status env_launch_fails = Some 1
  ∧ calls env_launch_fails
    = (take 16 tested_program).*1 ++ [clEnqueueNDRangeKernel MATRIX_SIZE MATRIX_SIZE 16 16].
Proof.
  exact (checked_call_failure env_launch_fails (take 16 tested_program)
           (clEnqueueNDRangeKernel MATRIX_SIZE MATRIX_SIZE 16 16) "Enqueueing kernel"
           (drop 17 tested_program) env_launch_fails_fair env_launch_fails_split
           env_launch_fails_before ltac:(discriminate)).
Defined.

(** X9. The failure paths leave through [exit(1)] without cleaning up:
    whichever tested call fails first, the three host blocks have been
    allocated, none is freed, and no release call is made. *)
Theorem failure_skips_cleanup (env : environment) (pre : list (api_call * option string))
    (c : api_call) (label : option string) (post : list (api_call * option string)) :
  fair env →
  tested_program = pre ++ (c, label) :: post →
  Forall (λ p, cl_status env p.1 = CL_SUCCESS) pre →
  cl_status env c ≠ CL_SUCCESS →
  exit_status env = Some 1
  ∧ (∀ m, EvMalloc m ∈ events env ∧ EvFree m ∉ events env)
  ∧ (∀ r, is_release r = true → r ∉ calls env).
Proof.
  intros Hfair Hprog Hpre Hc.
  destruct (events_of_failure env pre c label post Hfair Hprog Hpre Hc) as [Hexit Hev].
  destruct (prefix_not_release pre (c, label) post Hprog) as [Hnr Hnc]. cbn [fst] in Hnc.
  assert (Forall (λ e, is_cleanup e = false) (events env)) as Hclean.
  { rewrite Hev. repeat (apply Forall_app; split).
    - by repeat constructor.
    - by apply steps_not_cleanup.
    - unfold failure_events. destruct label; by repeat constructor. }
  split; [exact Hexit|]. split.
  - intros m. split.
    + rewrite Hev. apply elem_of_app. left. unfold mallocs.
      destruct m; [left|right; left|right; right; left].
    + intros Hin. by apply (proj1 (Forall_forall _ _) Hclean) in Hin.
  - intros r Hr Hin. apply call_in_trace in Hin as [st Hin].
    apply (proj1 (Forall_forall _ _) Hclean) in Hin. cbn in Hin. congruence.
Qed.

Lemma failure_skips_cleanup_witness :
  exit_status env_launch_fails = Some 1
  ∧ (∀ m, EvMalloc m ∈ events env_launch_fails ∧ EvFree m ∉ events env_launch_fails)
  ∧ (∀ r, is_release r = true → r ∉ calls env_launch_fails).
Proof.
  exact (failure_skips_cleanup env_launch_fails (take 16 tested_program)
           (clEnqueueNDRangeKernel MATRIX_SIZE MATRIX_SIZE 16 16) (Some "Enqueueing kernel")
           (drop 17 tested_program) env_launch_fails_fair env_launch_fails_split
           env_launch_fails_before ltac:(discriminate)).
Defined.

Lemma program_output env :
  program_ok env → fair env →
  stderr env = EmptyString ∧ calls env = tested_program.*1 ++ release_calls.
Proof.
  intros Hok Hfair. destruct (events_of_program env Hok Hfair) as [_ Hev].
  destruct (stdout_not_call _ (corner_stdout env (product env))) as (Hc1 & Hc2 & _).
  destruct (steps_silent env tested_program.*1) as [Hs _].
  unfold stderr, calls. rewrite Hev.
  rewrite !omap_app, Hc1, Hc2, Hs, steps_calls. split; exact eq_refl.
Qed.

Lemma first_failing {X} (P : X → Prop) `{!∀ x, Decision (P x)} (l : list X) :
  ¬ Forall P l → ∃ pre x post, l = pre ++ x :: post ∧ Forall P pre ∧ ¬ P x.
Proof.
  induction l as [|x l IH]; intros Hn; [by destruct Hn|].
  destruct (decide (P x)) as [Hx|Hx].
  - destruct IH as (pre & y & post & -> & Hpre & Hy).
    { intros Hl. apply Hn. by constructor. }
    exists (x :: pre), y, post. split; [done|]. split; [by constructor|done].
  - exists [], x, l. by repeat split.
Qed.

Lemma failure_text_nonempty env c label : failure_text env c label ≠ EmptyString.
Proof. destruct label; discriminate. Qed.

(** X10. The statuses of the seven release calls are not looked at: when
    the tested calls succeed, the process makes every call of the program
    in order, then the seven releases, writes nothing to standard error
    and returns 0, whatever the releases return. *)
Theorem release_status_ignored (env : environment) :
  program_ok env → fair env →
  exit_status env = Some 0
  ∧ stderr env = EmptyString
  ∧ calls env = tested_program.*1 ++ release_calls
  ∧ ∀ r, r ∈ release_calls → EvCall r (cl_status env r) ∈ events env.
Proof.
  intros Hok Hfair. destruct (events_of_program env Hok Hfair) as [Hexit Hev].
  destruct (program_output env Hok Hfair) as [Herr Hcalls].
  split; [exact Hexit|]. split; [exact Herr|]. split; [exact Hcalls|].
  intros r Hr. rewrite Hev.
  apply elem_of_app. right. apply elem_of_app. right. apply elem_of_app. right.
  unfold events_cleanup, released, release_calls in *.
  repeat (apply elem_of_cons in Hr as [->|Hr]; [by repeat constructor|]). by apply elem_of_nil in Hr.
Qed.

Lemma release_status_ignored_witness :
  cl_status env_release_fails clReleaseContext = -38
  ∧ exit_status env_release_fails = Some 0
  ∧ stderr env_release_fails = EmptyString
  ∧ calls env_release_fails = tested_program.*1 ++ release_calls
  ∧ ∀ r, r ∈ release_calls →
      EvCall r (cl_status env_release_fails r) ∈ events env_release_fails.
Proof.
  split; [reflexivity|].
  exact (release_status_ignored env_release_fails env_release_fails_ok env_release_fails_fair).
Defined.

(** X11. On the normal path the cleanup comes last and once: the run
    ends with the releases of buffers A, B and C, of the kernel, the
    program, the queue and the context, in this order, followed by the
    three calls of [free]; no release and no [free] happens before. *)
Theorem cleanup_comes_last (env : environment) :
  program_ok env → fair env →
  ∃ evs, events env
         = evs ++ ((λ r, EvCall r (cl_status env r)) <$> release_calls)
               ++ (EvFree <$> [MemA; MemB; MemC])
         ∧ Forall (λ e, is_cleanup e = false) evs.
Proof.
  intros Hok Hfair. destruct (events_of_program env Hok Hfair) as [_ Hev].
  exists (mallocs ++ (tested_program.*1 ≫= step_events env) ++ corner_events env (product env)).
  split.
  - rewrite Hev, <- !app_assoc. exact eq_refl.
  - apply Forall_app; split; [|apply Forall_app; split].
    + by repeat constructor.
    + apply steps_not_cleanup, program_not_release.
    + apply stdout_not_call, corner_stdout.
Qed.

Lemma cleanup_comes_last_witness :
  ∃ evs, events env_release_fails
         = evs ++ ((λ r, EvCall r (cl_status env_release_fails r)) <$> release_calls)
               ++ (EvFree <$> [MemA; MemB; MemC])
         ∧ Forall (λ e, is_cleanup e = false) evs.
Proof.
  exact (cleanup_comes_last env_release_fails env_release_fails_ok env_release_fails_fair).
Defined.







(** X13. The exit status of the process, for any statuses of the API
    calls: 0 exactly when all the tested calls of the program succeed, and
    then nothing is written to standard error; 1 otherwise, and then
    nothing is printed and standard error is not empty. The process
    always terminates, with one of these two. *)
Theorem exit_status_classification (env : environment) :
  fair env →
  (program_ok env → exit_status env = Some 0 ∧ stderr env = EmptyString)
  ∧ (¬ program_ok env →
     exit_status env = Some 1 ∧ stdout env = EmptyString ∧ stderr env ≠ EmptyString)
  ∧ (exit_status env = Some 0 ↔ program_ok env).
Proof.
  intros Hfair.
  assert (program_ok env → exit_status env = Some 0 ∧ stderr env = EmptyString) as Hyes.
  { intros Hok. split; [apply (events_of_program env Hok Hfair)|].
    apply (program_output env Hok Hfair). }
  assert (¬ program_ok env →
          exit_status env = Some 1 ∧ stdout env = EmptyString ∧ stderr env ≠ EmptyString)
    as Hno.
  { intros Hn. apply first_failing in Hn as (pre & [c label] & post & Hprog & Hpre & Hc);
      [|apply _].
    destruct (first_failure env pre c label post Hfair Hprog Hpre Hc)
      as (Herr & Hout & Hexit & _).
    split; [exact Hexit|]. split; [exact Hout|]. rewrite Herr.
    apply failure_text_nonempty. }
  split; [exact Hyes|]. split; [exact Hno|]. split.
  - intros Hexit. destruct (decide (program_ok env)) as [|Hn]; [done|].
    apply Hno in Hn as [Hn _]. rewrite Hn in Hexit. discriminate Hexit.
  - apply Hyes.
Qed.

Lemma exit_status_classification_witness :
  (program_ok env_release_fails →
   exit_status env_release_fails = Some 0 ∧ stderr env_release_fails = EmptyString)
  ∧ (¬ program_ok env_launch_fails →
     exit_status env_launch_fails = Some 1 ∧ stdout env_launch_fails = EmptyString
     ∧ stderr env_launch_fails ≠ EmptyString).
Proof.
  split.
  - exact (proj1 (exit_status_classification env_release_fails env_release_fails_fair)).
  - exact (proj1 (proj2 (exit_status_classification env_launch_fails env_launch_fails_fair))).
Defined.

(** X14. Data flow on the normal path. When [main] returns, no command
    is left in the queue; the device buffers A and B hold the host
    matrices, which the run did not change after filling them; and the
    host's [C] is the device's [C], the row-major list of the dot products
    of the rows of [A] with the columns of [B]: no cell keeps what the
    uninitialised blocks held. *)
Theorem result_read_back (env : environment) :
  program_ok env → fair env →
  ∃ w, run env = (Ret 0, w)
       ∧ pending w = []
       ∧ mA (host w) = host_A env ∧ mB (host w) = host_B env
       ∧ mA (dev w) = mA (host w) ∧ mB (dev w) = mB (host w)
       ∧ mC (host w) = mC (dev w)
       ∧ mC (host w)
         = (λ o, ref_dot (mA (host w)) (mB (host w)) MATRIX_SIZE
                   (o `div` MATRIX_SIZE) (o `mod` MATRIX_SIZE))
           <$> seqZ 0 (MATRIX_SIZE * MATRIX_SIZE).
Proof.
  intros Hok Hfair. exists (world_done env).
  split; [exact (run_program env Hok Hfair)|].
  unfold world_done. cbn [pending host dev mA mB mC].
  do 6 (split; [exact eq_refl|]).
  transitivity (product_cells MATRIX_SIZE (host_A env) (host_B env));
    [|unfold product_cells; exact eq_refl].
  rewrite <- product_eq.
  exact (reference_cells MATRIX_SIZE (host_A env) (host_B env) (fresh (dev_uninit env MemC))
           MATRIX_SIZE_pos MATRIX_SIZE_fits (length_host_A env) (length_host_B env)
           (length_fresh (dev_uninit env MemC))).
Qed.

Lemma result_read_back_witness :
  ∃ w, run env_ok = (Ret 0, w)
       ∧ pending w = []
       ∧ mA (host w) = host_A env_ok ∧ mB (host w) = host_B env_ok
       ∧ mA (dev w) = mA (host w) ∧ mB (dev w) = mB (host w)
       ∧ mC (host w) = mC (dev w)
       ∧ mC (host w)
         = (λ o, ref_dot (mA (host w)) (mB (host w)) MATRIX_SIZE
                   (o `div` MATRIX_SIZE) (o `mod` MATRIX_SIZE))
           <$> seqZ 0 (MATRIX_SIZE * MATRIX_SIZE).
Proof. exact (result_read_back env_ok env_ok_program env_ok_fair). Defined.
